(** * kelime-quiz: the quiz session engine of [App.js]

    A shallow embedding of the pure helpers ([shuffle], [normalize],
    [isCorrect], [getHint]) and of the event handlers of the [App]
    component ([onSubmit], [onPass], [goNext], [onReveal], [onHint], the
    footer buttons and the load effect), with the React state variables
    gathered in one record that every handler maps to the state of the next
    render.

    JavaScript strings are sequences of UTF-16 code units ([list Z]); the
    numbers the handlers compute with are integer valued or [NaN]. *)

From Stdlib Require Import ZArith List Lia Ascii String.
From stdpp Require Import base numbers list.

Local Open Scope Z_scope.

(** ** JavaScript values *)

Module Js.

(** A string is its list of UTF-16 code units. *)
Definition jsstring : Type := list Z.

(** The code units of an ASCII literal. *)
Definition lit (s : string) : jsstring :=
  map (fun a => Z.of_N (N_of_ascii a)) (list_ascii_of_string s).

Definition SPACE : Z := 0x20.

(** [WhiteSpace] and [LineTerminator] of ECMAScript: what [\s] matches and
    what [trim] strips. *)
Definition is_white_space (c : Z) : bool :=
  (c =? 0x09) || (c =? 0x0A) || (c =? 0x0B) || (c =? 0x0C) || (c =? 0x0D)
  || (c =? 0x20) || (c =? 0xA0) || (c =? 0x1680)
  || ((0x2000 <=? c) && (c <=? 0x200A))
  || (c =? 0x2028) || (c =? 0x2029) || (c =? 0x202F) || (c =? 0x205F)
  || (c =? 0x3000) || (c =? 0xFEFF).

(** [s || ''] on a string: the empty string is the only falsy one. *)
Definition or_empty (s : jsstring) : jsstring :=
  match s with
  | [] => []
  | _ :: _ => s
  end.

(** [s.replace(/[cls]/g, by)]: every code unit of the class is a match of
    its own. *)
Definition replace_class (cls : Z -> bool) (by_ : jsstring) (s : jsstring) : jsstring :=
  flat_map (fun c => if cls c then by_ else [c]) s.

(** [s.replace(/[cls]+/g, by)]: the scan emits [by] when it enters a run of
    the class and swallows the rest of the run (the quantifier is greedy),
    [in_run] telling whether the previous code unit belonged to the match. *)
Fixpoint replace_runs_from (cls : Z -> bool) (by_ : jsstring) (in_run : bool)
    (s : jsstring) : jsstring :=
  match s with
  | [] => []
  | c :: r =>
      if cls c then
        if in_run then replace_runs_from cls by_ true r
        else by_ ++ replace_runs_from cls by_ true r
      else c :: replace_runs_from cls by_ false r
  end.

Definition replace_runs (cls : Z -> bool) (by_ : jsstring) (s : jsstring) : jsstring :=
  replace_runs_from cls by_ false s.

(** [s.trimStart()], [s.trimEnd()], [s.trim()]. *)
Fixpoint trimStart (s : jsstring) : jsstring :=
  match s with
  | [] => []
  | c :: r => if is_white_space c then trimStart r else s
  end.

Definition trimEnd (s : jsstring) : jsstring := rev (trimStart (rev s)).

Definition trim (s : jsstring) : jsstring := trimEnd (trimStart s).

(** [s.split(sep)] for a separator of one code unit: never an empty array,
    [''.split('|')] is [['']]. *)
Fixpoint split (sep : Z) (s : jsstring) : list jsstring :=
  match s with
  | [] => [[]]
  | c :: r =>
      if c =? sep then [] :: split sep r
      else match split sep r with
           | h :: t => (c :: h) :: t
           | [] => [[c]]
           end
  end.

(** [a === b] on strings. *)
Definition str_eqb (a b : jsstring) : bool := bool_decide (a = b).

(** Numbers: the integers and [NaN] (the handlers never produce a
    fraction or an infinity from integer input). *)
Inductive num : Type :=
  | Int (z : Z)
  | NaN.

Definition num_add (a b : num) : num :=
  match a, b with
  | Int x, Int y => Int (x + y)
  | _, _ => NaN
  end.

(** [a % b]: the remainder has the sign of the dividend; [x % 0] is [NaN]. *)
Definition num_rem (a b : num) : num :=
  match a, b with
  | Int x, Int y => if y =? 0 then NaN else Int (Z.rem x y)
  | _, _ => NaN
  end.

(** [a[i]]: [undefined] ([None]) unless [i] is an index of the array. *)
Definition array_get {A : Type} (a : list A) (i : num) : option A :=
  match i with
  | Int z => if 0 <=? z then a !! Z.to_nat z else None
  | NaN => None
  end.

(** [ToIntegerOrInfinity] and the relative index of [slice]. *)
Definition to_integer (n : num) : Z :=
  match n with
  | Int z => z
  | NaN => 0
  end.

Definition relative_index (len k : Z) : Z :=
  if k <? 0 then Z.max (len + k) 0 else Z.min k len.

(** [a.slice(start, end)], [end] left out being [None]. *)
Definition slice {A : Type} (a : list A) (start : num) (end_ : option num) : list A :=
  let len := Z.of_nat (length a) in
  let k := relative_index len (to_integer start) in
  let final :=
    match end_ with
    | None => len
    | Some e => relative_index len (to_integer e)
    end in
  take (Z.to_nat (final - k)) (drop (Z.to_nat k) a).

End Js.

Import Js.

(** ** Matcher: [normalize] and [isCorrect] *)

Module Matcher.

(** The character class of the first [replace] of [normalize]: the 22
    characters of the literal below and the double quote, code unit 34. *)
Definition punctuation : jsstring := lit ".,/#!$%^&*;:{}=-_`~()'" ++ [34].

Definition is_punctuation (c : Z) : bool := bool_decide (c ∈ punctuation).

Definition PIPE : Z := 0x7C.

Section WithLocale.

(** [String.prototype.toLocaleLowerCase] at locale ['tr'] is a built-in of
    the host; the functions below take it as a parameter. *)
Variable toLocaleLowerCase_tr : jsstring -> jsstring.

Definition normalize (str : jsstring) : jsstring :=
  trim
    (replace_runs is_white_space [SPACE]
       (replace_class is_punctuation [SPACE]
          (toLocaleLowerCase_tr (or_empty str)))).

Definition isCorrect (userAnswer truth : jsstring) : bool :=
  let ua := normalize userAnswer in
  let options := map normalize (split PIPE (or_empty truth)) in
  existsb (fun opt => (0 <? Z.of_nat (length opt)) && str_eqb ua opt) options.

End WithLocale.

(** *** A concrete lowercasing for the Turkish alphabet

    The built-in restricted to ASCII, the Turkish letters and the combining
    dot above: [I] becomes dotless [ı] unless a combining dot above follows,
    in which case the pair becomes [i]; [İ] becomes [i]; every code unit
    outside this repertoire is left as it is. *)
Definition lower_unit (c : Z) : Z :=
  if (0x41 <=? c) && (c <=? 0x5A) then c + 32
  else if c =? 0x130 then 0x69
  else if c =? 0xC7 then 0xE7
  else if c =? 0xD6 then 0xF6
  else if c =? 0xDC then 0xFC
  else if c =? 0x11E then 0x11F
  else if c =? 0x15E then 0x15F
  else c.

Fixpoint tr_lower (s : jsstring) : jsstring :=
  match s with
  | [] => []
  | c :: r =>
      if c =? 0x49 then
        match r with
        | d :: r' => if d =? 0x307 then 0x69 :: tr_lower r' else 0x131 :: tr_lower r
        | [] => [0x131]
        end
      else lower_unit c :: tr_lower r
  end.

(** *** The normalization as the specification words it

    Lowercase for the locale, every punctuation character replaced by one
    space, runs of whitespace collapsed to one space, both ends trimmed. *)
Definition spec_punctuation : list Z :=
  [ 46 (* . *); 44 (* , *); 47 (* / *); 35 (* # *); 33 (* ! *); 36 (* $ *);
    37 (* % *); 94 (* ^ *); 38 (* & *); 42 (* * *); 59 (* ; *); 58 (* : *);
    123 (* { *); 125 (* } *); 61 (* = *); 45 (* - *); 95 (* _ *);
    96 (* backquote *); 126 (* ~ *); 40 (* left parenthesis *);
    41 (* right parenthesis *); 39 (* quote *); 34 (* double quote *) ].

Definition spec_blank_punctuation (s : jsstring) : jsstring :=
  map (fun c => if bool_decide (c ∈ spec_punctuation) then SPACE else c) s.

(** Every code unit next to the one before it, if any. *)
Fixpoint with_previous (prev : option Z) (s : jsstring) : list (option Z * Z) :=
  match s with
  | [] => []
  | c :: r => (prev, c) :: with_previous (Some c) r
  end.

(** A whitespace character that follows a whitespace character continues a
    run. *)
Definition continues_run (p : option Z * Z) : bool :=
  is_white_space (snd p)
  && match fst p with
     | Some d => is_white_space d
     | None => false
     end.

(** Of each run only its first character stays, as a space. *)
Definition spec_collapse (s : jsstring) : jsstring :=
  map (fun p => if is_white_space (snd p) then SPACE else snd p)
      (List.filter (fun p => negb (continues_run p)) (with_previous None s)).

(** Trailing whitespace goes, then leading whitespace. *)
Definition spec_trim (s : jsstring) : jsstring :=
  trimStart (rev (trimStart (rev s))).

Definition spec_normalize (lower : jsstring -> jsstring) (s : jsstring) : jsstring :=
  spec_trim (spec_collapse (spec_blank_punctuation (lower s))).

End Matcher.

(** ** HintEngine: [getHint] *)

Module HintEngine.

Definition DOT : Z := 0x2E.

(** The loop of [getHint]: [rest] is what is left of [word] from index [i]
    on, [result] the string built so far. *)
Fixpoint getHint_loop (revealedCount : Z) (i : Z) (rest : jsstring)
    (result : jsstring) : jsstring :=
  match rest with
  | [] => result
  | c :: r =>
      getHint_loop revealedCount (i + 1) r
        (if (i <? revealedCount) || (c =? SPACE) then result ++ [c]
         else result ++ [DOT])
  end.

(** [revealedCount] defaults to 1 when the caller leaves it out; the
    component always passes [hintCount]. *)
Definition getHint (word : jsstring) (revealedCount : Z) : jsstring :=
  match word with
  | [] => []
  | _ :: _ => getHint_loop revealedCount 0 word []
  end.

(** *** [syllabify] *)

Definition HYPHEN : Z := 0x2D.

(** What [/[aeiouy]/i] matches: the flag [i] compares the upper case of
    single code units and never lets a code unit from 128 on match an ASCII
    one, which leaves these twelve. *)
Definition is_vowel (c : Z) : bool := bool_decide (c ∈ lit "aeiouyAEIOUY").

(** [word.replace(/([aeiouy])/gi, '$1-')]. *)
Definition hyphenate (word : jsstring) : jsstring :=
  flat_map (fun c => if is_vowel c then [c; HYPHEN] else [c]) word.

(** [s.replace(/-$/, '')]: without the flag [m] the dollar is the end of the
    string. *)
Definition strip_final_hyphen (s : jsstring) : jsstring :=
  match rev s with
  | c :: r => if c =? HYPHEN then rev r else s
  | [] => s
  end.

Definition syllabify (word : jsstring) : jsstring :=
  match word with
  | [] => []
  | _ :: _ => strip_final_hyphen (hyphenate word)
  end.

End HintEngine.

(** ** The session: state of the [App] component and its handlers *)

Module Session.

Record Word : Type := { en : jsstring; tr : jsstring }.

(** What [current] falls back to when [orderedWords[idx]] is undefined. *)
Definition placeholder : Word := {| en := lit "-"; tr := lit "-" |}.

Inductive QuizMode : Type := en2tr | tr2en.

Record Stats : Type := { correct : Z; wrong : Z; passed : Z }.

Definition zero_stats : Stats := {| correct := 0; wrong := 0; passed := 0 |}.

Record State : Type := {
  orderedWords : list Word;
  idx : num;
  answer : jsstring;
  revealed : bool;
  stats : Stats;
  loaded : bool;
  quizMode : QuizMode;
  hintCount : Z
}.

(** *** [shuffle] *)

(** A result of [Math.random()]: the fraction [r_num / (r_num + r_gap + 1)],
    at least 0 and below 1. *)
Record Random : Type := { r_num : nat; r_gap : nat }.

(** [Math.floor(u * k)]. *)
Definition floor_times (u : Random) (k : nat) : nat :=
  ((r_num u * k) / (r_num u + r_gap u + 1))%nat.

(** [[a[i], a[j]] = [a[j], a[i]]]; the loop of [shuffle] only calls it with
    indices of the array. *)
Definition swap {A : Type} (a : list A) (i j : nat) : list A :=
  match a !! i, a !! j with
  | Some x, Some y => <[j:=x]> (<[i:=y]> a)
  | _, _ => a
  end.

(** The loop of [shuffle] from index [i] down to 1; [random i] is what
    [Math.random()] returns in the iteration at index [i]. *)
Fixpoint shuffle_loop {A : Type} (random : nat -> Random) (i : nat) (a : list A) : list A :=
  match i with
  | O => a
  | S i' => shuffle_loop random i' (swap a i (floor_times (random i) (i + 1)))
  end.

Definition shuffle {A : Type} (random : nat -> Random) (array : list A) : list A :=
  shuffle_loop random (length array - 1)%nat array.

(** *** Values derived at each render *)

Definition total (st : State) : Z := Z.of_nat (length (orderedWords st)).

Definition current (st : State) : Word :=
  default placeholder (array_get (orderedWords st) (idx st)).

Definition correctAnswer (st : State) : jsstring :=
  match quizMode st with
  | en2tr => tr (current st)
  | tr2en => en (current st)
  end.

(** *** Handlers *)

Definition goNext (st : State) : State :=
  let nextIdx := num_rem (num_add (idx st) (Int 1)) (Int (Z.of_nat (length (orderedWords st)))) in
  {| orderedWords := orderedWords st;
     idx := nextIdx;
     answer := [];
     revealed := false;
     stats := stats st;
     loaded := loaded st;
     quizMode := quizMode st;
     hintCount := 0 |}.

Definition onPass (st : State) : State :=
  let w := current st in
  let rest :=
    slice (orderedWords st) (Int 0) (Some (idx st))
    ++ slice (orderedWords st) (num_add (idx st) (Int 1)) None in
  let newOrder := rest ++ [w] in
  {| orderedWords := newOrder;
     idx := idx st;
     answer := [];
     revealed := false;
     stats := {| correct := correct (stats st);
                 wrong := wrong (stats st);
                 passed := passed (stats st) + 1 |};
     loaded := loaded st;
     quizMode := quizMode st;
     hintCount := 0 |}.

Definition count_correct (st : State) : State :=
  {| orderedWords := orderedWords st;
     idx := idx st;
     answer := answer st;
     revealed := revealed st;
     stats := {| correct := correct (stats st) + 1;
                 wrong := wrong (stats st);
                 passed := passed (stats st) |};
     loaded := loaded st;
     quizMode := quizMode st;
     hintCount := hintCount st |}.

Definition reveal_wrong (st : State) : State :=
  {| orderedWords := orderedWords st;
     idx := idx st;
     answer := answer st;
     revealed := true;
     stats := {| correct := correct (stats st);
                 wrong := wrong (stats st) + 1;
                 passed := passed (stats st) |};
     loaded := loaded st;
     quizMode := quizMode st;
     hintCount := hintCount st |}.

Definition onSubmit (lower : jsstring -> jsstring) (st : State) : State :=
  match trim (answer st) with
  | [] => st
  | _ :: _ =>
      let ok := Matcher.isCorrect lower (answer st) (correctAnswer st) in
      if ok then goNext (count_correct st) else reveal_wrong st
  end.

Definition onReveal (st : State) : State :=
  {| orderedWords := orderedWords st;
     idx := idx st;
     answer := answer st;
     revealed := true;
     stats := stats st;
     loaded := loaded st;
     quizMode := quizMode st;
     hintCount := hintCount st |}.

Definition onHint (st : State) : State :=
  {| orderedWords := orderedWords st;
     idx := idx st;
     answer := answer st;
     revealed := revealed st;
     stats := stats st;
     loaded := loaded st;
     quizMode := quizMode st;
     hintCount := hintCount st + 1 |}.

Section WithWordBank.

(** [wordsData], the array imported from [assets/words.json]. *)
Variable wordsData : list Word.

(** The state of the first render. *)
Definition initial (random : nat -> Random) : State :=
  {| orderedWords := shuffle random wordsData;
     idx := Int 0;
     answer := [];
     revealed := false;
     stats := zero_stats;
     loaded := false;
     quizMode := en2tr;
     hintCount := 0 |}.

(** The confirmed branch of [onResetProgress]. *)
Definition onResetProgress (random : nat -> Random) (st : State) : State :=
  {| orderedWords := shuffle random wordsData;
     idx := Int 0;
     answer := [];
     revealed := false;
     stats := zero_stats;
     loaded := loaded st;
     quizMode := quizMode st;
     hintCount := 0 |}.

(** *** The load effect *)

(** [parsed.orderedWords]: a falsy value (the field is missing, [null],
    ...), a truthy value that is not an array, or an array. *)
Inductive SavedOrder : Type :=
  | Falsy
  | NotArray
  | Array (ws : list Word).

(** The fields the effect reads from the parsed item; [None] is a missing
    (or, for [p_idx], [null]) field, which [??] and [||] replace by the
    default. The snapshots of this model are those whose fields have the
    types the save effect writes: words in the array, an integer cursor,
    three counters, a mode. *)
Record Parsed : Type := {
  p_orderedWords : SavedOrder;
  p_idx : option Z;
  p_stats : option Stats;
  p_quizMode : option QuizMode
}.

(** What [AsyncStorage.getItem] and [JSON.parse] give: nothing stored, a
    failure that the [catch] swallows, or a parsed snapshot. *)
Inductive Stored : Type :=
  | Nothing
  | Failure
  | Snapshot (parsed : Parsed).

Definition mark_loaded (st : State) : State :=
  {| orderedWords := orderedWords st;
     idx := idx st;
     answer := answer st;
     revealed := revealed st;
     stats := stats st;
     loaded := true;
     quizMode := quizMode st;
     hintCount := hintCount st |}.

(** [restoredOrder] of the effect. *)
Definition restoredOrder (random : nat -> Random) (parsed : Parsed) : list Word :=
  let restored :=
    match p_orderedWords parsed with
    | Falsy => Array wordsData
    | o => o
    end in
  match restored with
  | Array ws =>
      if bool_decide (length ws ≠ length wordsData) then shuffle random wordsData
      else ws
  | _ => shuffle random wordsData
  end.

Definition load (random : nat -> Random) (item : Stored) (st : State) : State :=
  match item with
  | Nothing | Failure => mark_loaded st
  | Snapshot parsed =>
      let order := restoredOrder random parsed in
      {| orderedWords := order;
         idx := Int (Z.min (default 0 (p_idx parsed)) (Z.of_nat (length order) - 1));
         answer := answer st;
         revealed := revealed st;
         stats := default zero_stats (p_stats parsed);
         loaded := true;
         quizMode := default en2tr (p_quizMode parsed);
         hintCount := hintCount st |}
  end.

End WithWordBank.

(** The save effect: the snapshot that [JSON.stringify] writes and
    [JSON.parse] reads back; a [NaN] cursor is written as [null]. *)
Definition saved (st : State) : Parsed :=
  {| p_orderedWords := Array (orderedWords st);
     p_idx := match idx st with
              | Int z => Some z
              | NaN => None
              end;
     p_stats := Some (stats st);
     p_quizMode := Some (quizMode st) |}.

(** The footer button that shuffles the current order. *)
Definition onShuffle (random : nat -> Random) (st : State) : State :=
  {| orderedWords := shuffle random (orderedWords st);
     idx := Int 0;
     answer := [];
     revealed := false;
     stats := stats st;
     loaded := loaded st;
     quizMode := quizMode st;
     hintCount := 0 |}.

(** The footer button that switches the direction. *)
Definition onToggleMode (st : State) : State :=
  {| orderedWords := orderedWords st;
     idx := idx st;
     answer := [];
     revealed := false;
     stats := stats st;
     loaded := loaded st;
     quizMode := match quizMode st with en2tr => tr2en | tr2en => en2tr end;
     hintCount := 0 |}.

(** [onChangeText={setAnswer}] of the text input. *)
Definition setAnswer (text : jsstring) (st : State) : State :=
  {| orderedWords := orderedWords st;
     idx := idx st;
     answer := text;
     revealed := revealed st;
     stats := stats st;
     loaded := loaded st;
     quizMode := quizMode st;
     hintCount := hintCount st |}.

(** *** Runs of the component *)

(** What can happen between two renders: the user types, presses a button,
    or the load effect settles. *)
Inductive Event : Type :=
  | ChangeText (text : jsstring)
  | Submit
  | Pass
  | Reveal
  | Hint
  | Next
  | ResetProgress (random : nat → Random)
  | Shuffle (random : nat → Random)
  | ToggleMode
  | Load (random : nat → Random) (item : Stored).

Section Runs.

Variable lower : jsstring → jsstring.
Variable wordsData : list Word.

Definition handle (e : Event) (st : State) : State :=
  match e with
  | ChangeText text => setAnswer text st
  | Submit => onSubmit lower st
  | Pass => onPass st
  | Reveal => onReveal st
  | Hint => onHint st
  | Next => goNext st
  | ResetProgress random => onResetProgress wordsData random st
  | Shuffle random => onShuffle random st
  | ToggleMode => onToggleMode st
  | Load random item => load wordsData random item st
  end.

Definition run (es : list Event) (st : State) : State :=
  fold_left (fun st e => handle e st) es st.

End Runs.

(** The items shown in a row: the current one and those after each of the
    next [k - 1] presses of the next button. *)
Definition shown (k : nat) (st : State) : list Word :=
  map (fun m => current (Nat.iter m goNext st)) (seq 0 k).

(** The cursors of the same renders. *)
Definition cursors (k : nat) (st : State) : list num :=
  map (fun m => idx (Nat.iter m goNext st)) (seq 0 k).

(** *** More values derived at each render *)

(** [current.tr.split('|')[0]] in the direction [tr2en]; [split] never gives
    an empty array. *)
Definition question (st : State) : jsstring :=
  match quizMode st with
  | en2tr => en (current st)
  | tr2en => default [] (head (split Matcher.PIPE (tr (current st))))
  end.

(** [stats.correct + stats.wrong + stats.passed]. *)
Definition answered (st : State) : Z :=
  correct (stats st) + wrong (stats st) + passed (stats st).

Definition remaining (st : State) : Z := Z.max (total st - answered st) 0.

(** What the two hint boxes of the card show after their labels, [None]
    when the box is not rendered: [hintCount > 0 && ...] with
    [getHint(correctAnswer, hintCount)] and [hintCount > 1 && ...] with
    [syllabify(correctAnswer)]. *)
Definition hintText (st : State) : option jsstring :=
  if 0 <? hintCount st
  then Some (HintEngine.getHint (correctAnswer st) (hintCount st))
  else None.

Definition syllableText (st : State) : option jsstring :=
  if 1 <? hintCount st
  then Some (HintEngine.syllabify (correctAnswer st))
  else None.

(** *** The save effect *)

(** The effect writes the snapshot once the load effect has settled;
    [storage] is the item under the storage key, and a write that fails
    leaves it as it is. *)
Definition persist (written : bool) (st : State) (storage : Stored) : Stored :=
  if loaded st && written then Snapshot (saved st) else storage.

(** *** Sample data *)

Definition word_a : Word := {| en := lit "apple"; tr := lit "elma" |}.
Definition word_b : Word := {| en := lit "book"; tr := lit "kitap" |}.
Definition word_c : Word := {| en := lit "pencil"; tr := lit "kalem" |}.

Definition bank3 : list Word := [word_a; word_b; word_c].

Definition no_random : nat → Random := fun _ => {| r_num := 0; r_gap := 0 |}.

(** A snapshot as the save effect writes it. *)
Definition snapshot_saved : Parsed :=
  {| p_orderedWords := Array [word_c; word_a; word_b];
     p_idx := Some 2;
     p_stats := Some {| correct := 1; wrong := 0; passed := 1 |};
     p_quizMode := Some tr2en |}.

(** Snapshots that some other writer left in the storage. *)
Definition snapshot_negative : Parsed :=
  {| p_orderedWords := Array bank3;
     p_idx := Some (-1);
     p_stats := None;
     p_quizMode := None |}.

Definition snapshot_doubled : Parsed :=
  {| p_orderedWords := Array [word_a; word_a; word_c];
     p_idx := Some 0;
     p_stats := None;
     p_quizMode := None |}.

Definition snapshot_short : Parsed :=
  {| p_orderedWords := Array [word_a];
     p_idx := Some 5;
     p_stats := Some {| correct := 3; wrong := 1; passed := 2 |};
     p_quizMode := Some tr2en |}.

(** The snapshot parsed from [{}]. *)
Definition snapshot_empty : Parsed :=
  {| p_orderedWords := Falsy;
     p_idx := None;
     p_stats := None;
     p_quizMode := None |}.

Definition session_at (order : list Word) (cursor : num) (typed : jsstring) : State :=
  {| orderedWords := order;
     idx := cursor;
     answer := typed;
     revealed := false;
     stats := zero_stats;
     loaded := true;
     quizMode := en2tr;
     hintCount := 0 |}.

End Session.

(** ** Predicates the statements below are written with *)

Module Shape.

(** The head of a string is not whitespace (or there is none). *)
Definition starts_clean (s : jsstring) : Prop :=
  match s with
  | [] => True
  | c :: _ => is_white_space c = false
  end.

Definition was_white_space (prev : option Z) : bool :=
  match prev with
  | Some d => is_white_space d
  | None => false
  end.

(** Every whitespace character of [s] is a space that does not follow
    another whitespace character ([prev_ws]: one precedes [s]). *)
Fixpoint spaced (prev_ws : bool) (s : jsstring) : Prop :=
  match s with
  | [] => True
  | c :: r =>
      if is_white_space c then c = SPACE ∧ prev_ws = false ∧ spaced true r
      else spaced false r
  end.

(** ASCII lowercasing, and the ASCII code units other than [I], on which
    every locale agrees with it. *)
Definition ascii_lower (c : Z) : Z :=
  if (0x41 <=? c) && (c <=? 0x5A) then c + 32 else c.

Definition is_plain_ascii (c : Z) : bool :=
  (0 <=? c) && (c <? 0x80) && negb (c =? 0x49).

(** A code unit that [Matcher.tr_lower] leaves alone wherever it stands. *)
Definition settled (c : Z) : Prop := c ≠ 0x49 ∧ Matcher.lower_unit c = c.

(** The cursor is an index of the order. *)
Definition cursor_in_range (st : Session.State) : Prop :=
  ∃ z, Session.idx st = Int z ∧ 0 ≤ z < Z.of_nat (length (Session.orderedWords st)).

(** A stored cursor that is absent or not negative. *)
Definition cursor_not_negative (parsed : Session.Parsed) : Prop :=
  ∀ i, Session.p_idx parsed = Some i → 0 ≤ i.

(** A stored order that passes the length check of the load effect is a
    permutation of the word bank. *)
Definition order_of_bank (wordsData : list Session.Word) (parsed : Session.Parsed) : Prop :=
  ∀ ws, Session.p_orderedWords parsed = Session.Array ws →
        length ws = length wordsData → ws ≡ₚ wordsData.

(** The load effect replaces the stored order: it is a truthy value that is
    no array, or an array of another length than the word bank. *)
Definition order_rejected (wordsData : list Session.Word) (parsed : Session.Parsed) : Prop :=
  match Session.p_orderedWords parsed with
  | Session.Falsy => False
  | Session.NotArray => True
  | Session.Array ws => length ws ≠ length wordsData
  end.

(** Events whose snapshot, if they carry one, has a cursor that is not
    negative; and those whose snapshot moreover holds the bank's words. *)
Definition cursor_safe (e : Session.Event) : Prop :=
  match e with
  | Session.Load _ (Session.Snapshot parsed) => cursor_not_negative parsed
  | _ => True
  end.

Definition bank_safe (wordsData : list Session.Word) (e : Session.Event) : Prop :=
  match e with
  | Session.Load _ (Session.Snapshot parsed) =>
      cursor_not_negative parsed ∧ order_of_bank wordsData parsed
  | _ => True
  end.

(** The events that leave the counters to the handlers: all but the reset
    and the load, which overwrite them. *)
Definition counting_event (e : Session.Event) : Prop :=
  match e with
  | Session.ResetProgress _ | Session.Load _ _ => False
  | _ => True
  end.

(** The four operations of the scheduler among the events. *)
Definition scheduler_event (e : Session.Event) : Prop :=
  match e with
  | Session.Next | Session.Pass | Session.Shuffle _ | Session.Load _ _ => True
  | _ => False
  end.

(** The pieces put together again, [pieces.join(sep)]. *)
Fixpoint join (sep : Z) (pieces : list jsstring) : jsstring :=
  match pieces with
  | [] => []
  | p :: rest =>
      match rest with
      | [] => p
      | _ :: _ => p ++ sep :: join sep rest
      end
  end.

(** The last code unit of a string is not whitespace (or there is none). *)
Definition ends_clean (s : jsstring) : Prop := starts_clean (rev s).

(** A string of bars only, the empty one included. *)
Definition only_bars (s : jsstring) : bool := forallb (fun c => c =? Matcher.PIPE) s.

Definition not_hyphen (c : Z) : bool := negb (c =? HintEngine.HYPHEN).

(** What [getHint] shows of the characters from index [i] on. *)
Fixpoint mask_from (revealedCount : Z) (i : Z) (rest : jsstring) : jsstring :=
  match rest with
  | [] => []
  | c :: r =>
      (if (i <? revealedCount) || (c =? SPACE) then c else HintEngine.DOT)
      :: mask_from revealedCount (i + 1) r
  end.

End Shape.

Import Shape.

(** * Facts *)

(** ** Strings *)

Module JsFacts.

Lemma or_empty_id (s : jsstring) : or_empty s = s.
Proof. by destruct s. Qed.

Lemma trimStart_decompose (s : jsstring) :
  ∃ p, s = p ++ trimStart s ∧ forallb is_white_space p = true ∧ starts_clean (trimStart s).
Proof.
  induction s as [|c r (p & Hr & Hp & Hc)]; simpl.
  - by exists [].
  - destruct (is_white_space c) eqn:Ec.
    + exists (c :: p). simpl. rewrite Ec, Hp. by rewrite <- Hr.
    + exists []. simpl. by rewrite Ec.
Qed.

Lemma trimStart_app_blank (p t : jsstring) :
  forallb is_white_space p = true → trimStart (p ++ t) = trimStart t.
Proof.
  induction p as [|c p IH]; simpl; [done|].
  intros [Hc Hp]%andb_prop. rewrite Hc. by apply IH.
Qed.

Lemma trimStart_clean (t : jsstring) : starts_clean t → trimStart t = t.
Proof. destruct t as [|c t]; simpl; [done|]. by intros ->. Qed.

Lemma trimStart_clean_app (t u : jsstring) :
  t ≠ [] → starts_clean t → trimStart (t ++ u) = t ++ u.
Proof. destruct t as [|c t]; simpl; [done|]. by intros _ ->. Qed.

Lemma trimStart_idem (s : jsstring) : trimStart (trimStart s) = trimStart s.
Proof.
  destruct (trimStart_decompose s) as (p & _ & _ & Hc). by apply trimStart_clean.
Qed.

(** [trimEnd] keeps a prefix. *)
Lemma trimEnd_prefix (s : jsstring) :
  ∃ q, s = trimEnd s ++ q ∧ forallb is_white_space q = true.
Proof.
  unfold trimEnd. destruct (trimStart_decompose (rev s)) as (p & Hs & Hp & _).
  exists (rev p). split.
  - rewrite <- rev_app_distr, <- Hs. by rewrite rev_involutive.
  - rewrite forallb_forall in *. intros x Hx. apply Hp. by apply in_rev.
Qed.

Lemma trimEnd_starts_clean (s : jsstring) : starts_clean s → starts_clean (trimEnd s).
Proof.
  destruct (trimEnd_prefix s) as (q & Hs & _).
  destruct (trimEnd s) as [|c t]; [done|]. rewrite Hs. simpl. done.
Qed.

(** It does not matter which end is trimmed first. *)
Lemma trim_either_order (s : jsstring) :
  trimEnd (trimStart s) = trimStart (trimEnd s).
Proof.
  destruct (trimStart_decompose s) as (p & Hs & Hp & Hc).
  destruct (trimStart s) as [|c m] eqn:Em.
  - (* all of [s] is whitespace *)
    rewrite app_nil_r in Hs. subst p. unfold trimEnd at 1. simpl.
    destruct (trimEnd_prefix s) as (q & Hq & _).
    assert (Hall : forallb is_white_space (trimEnd s) = true).
    { rewrite forallb_forall in *. intros x Hx. apply Hp. rewrite Hq.
      apply in_or_app. by left. }
    rewrite <- (app_nil_r (trimEnd s)). by rewrite trimStart_app_blank.
  - simpl in Hc.
    assert (Hrev : trimStart (rev s) = trimStart (rev (c :: m)) ++ rev p).
    { rewrite Hs at 1. rewrite rev_app_distr.
      destruct (trimStart_decompose (rev (c :: m))) as (q & Hq & Hqw & Hqc).
      rewrite Hq at 1. rewrite <- app_assoc, trimStart_app_blank by done.
      apply trimStart_clean_app; [|done].
      intros Hnil. rewrite Hnil, app_nil_r in Hq.
      assert (Hin : In c q) by (rewrite <- Hq; apply in_rev; rewrite rev_involutive; by left).
      rewrite forallb_forall in Hqw. specialize (Hqw c Hin). congruence. }
    unfold trimEnd. rewrite Hrev, rev_app_distr, rev_involutive.
    rewrite trimStart_app_blank by done.
    symmetry. apply trimStart_clean.
    apply (trimEnd_starts_clean (c :: m)). done.
Qed.

Lemma trim_idem (s : jsstring) : trim (trim s) = trim s.
Proof.
  unfold trim. rewrite (trim_either_order (trimEnd (trimStart s))).
  unfold trimEnd at 1 2. rewrite rev_involutive, trimStart_idem.
  fold (trimEnd (trimStart s)). rewrite trim_either_order. apply trimStart_idem.
Qed.

(** [!s.trim()]: the string is empty or whitespace only. *)
Lemma trim_nil_iff (s : jsstring) : trim s = [] ↔ forallb is_white_space s = true.
Proof.
  split.
  - intros Ht. destruct (trimStart_decompose s) as (p & Hs & Hp & _).
    destruct (trimEnd_prefix (trimStart s)) as (q & Hq & Hqw).
    fold (trim s) in Hq. rewrite Ht in Hq. simpl in Hq.
    rewrite Hs, Hq, forallb_app, Hp, Hqw. done.
  - intros Hw. unfold trim.
    rewrite <- (app_nil_r s), trimStart_app_blank by done. done.
Qed.

End JsFacts.

(** ** Matcher *)

Module MatcherFacts.
Import JsFacts Matcher.

(** The class of the regular expression is the set of the specification. *)
Lemma punctuation_spec : punctuation = spec_punctuation.
Proof. reflexivity. Qed.

Lemma replace_class_blank (s : jsstring) :
  replace_class is_punctuation [SPACE] s = spec_blank_punctuation s.
Proof.
  unfold replace_class, spec_blank_punctuation, is_punctuation.
  rewrite punctuation_spec.
  induction s as [|c r IH]; simpl; [done|]. rewrite IH.
  repeat case_bool_decide; done.
Qed.

Lemma replace_runs_from_collapse (prev : option Z) (s : jsstring) :
  replace_runs_from is_white_space [SPACE] (was_white_space prev) s
  = map (fun p => if is_white_space (snd p) then SPACE else snd p)
        (List.filter (fun p => negb (continues_run p)) (with_previous prev s)).
Proof.
  revert prev. induction s as [|c r IH]; intros prev; simpl; [done|].
  unfold continues_run at 1. simpl.
  destruct (is_white_space c) eqn:Ec; simpl.
  - specialize (IH (Some c)). simpl in IH. rewrite Ec in IH.
    destruct prev as [d|]; simpl.
    + destruct (is_white_space d); simpl; rewrite ?Ec, IH; done.
    + by rewrite Ec, IH.
  - specialize (IH (Some c)). simpl in IH. rewrite Ec in IH. by rewrite Ec, IH.
Qed.

Lemma replace_runs_collapse (s : jsstring) :
  replace_runs is_white_space [SPACE] s = spec_collapse s.
Proof. apply (replace_runs_from_collapse None). Qed.

Lemma trim_spec_trim (s : jsstring) : trim s = spec_trim s.
Proof. unfold trim, spec_trim. rewrite trim_either_order. done. Qed.

(** The code computes the normalization the specification describes. *)
Lemma normalize_spec (lower : jsstring → jsstring) (s : jsstring) :
  normalize lower s = spec_normalize lower s.
Proof.
  unfold normalize, spec_normalize.
  by rewrite or_empty_id, replace_class_blank, replace_runs_collapse, trim_spec_trim.
Qed.

Lemma nonempty_length (s : jsstring) : (0 <? Z.of_nat (length s)) = true ↔ s ≠ [].
Proof. destruct s; simpl; split; intros H; try done. Qed.

(** [isCorrect] as a statement about [normalize]. *)
Lemma isCorrect_normalize (lower : jsstring → jsstring) (userAnswer truth : jsstring) :
  isCorrect lower userAnswer truth = true
  ↔ ∃ v, In v (split PIPE truth)
         ∧ normalize lower v ≠ []
         ∧ normalize lower userAnswer = normalize lower v.
Proof.
  unfold isCorrect. rewrite or_empty_id, existsb_exists. split.
  - intros (opt & Hin & Hok). apply in_map_iff in Hin as (v & <- & Hv).
    apply andb_prop in Hok as [Hlen Heq].
    exists v. split; [done|]. split.
    + by apply nonempty_length.
    + unfold str_eqb in Heq. by apply bool_decide_eq_true in Heq.
  - intros (v & Hv & Hne & Heq). exists (normalize lower v). split.
    + by apply in_map.
    + apply andb_true_intro. split; [by apply nonempty_length|].
      unfold str_eqb. by apply bool_decide_eq_true.
Qed.

(** *** Normalized strings are fixed points of the last three steps *)

Section Preserved.

Variable P : Z → Prop.
Hypothesis P_space : P SPACE.

Lemma Forall_replace_class (cls : Z → bool) (s : jsstring) :
  Forall P s → Forall P (replace_class cls [SPACE] s).
Proof.
  unfold replace_class. induction 1 as [|c r Hc _ IH]; simpl; [constructor|].
  destruct (cls c); simpl; by constructor.
Qed.

Lemma Forall_replace_runs (cls : Z → bool) (b : bool) (s : jsstring) :
  Forall P s → Forall P (replace_runs_from cls [SPACE] b s).
Proof.
  intros H. revert b. induction H as [|c r Hc _ IH]; intros b; simpl; [constructor|].
  destruct (cls c); [destruct b|]; simpl; auto.
Qed.

Lemma Forall_trimStart (s : jsstring) : Forall P s → Forall P (trimStart s).
Proof.
  induction 1 as [|c r Hc Hr IH]; simpl; [constructor|].
  destruct (is_white_space c); auto.
Qed.

Lemma Forall_trim (s : jsstring) : Forall P s → Forall P (trim s).
Proof.
  intros H. unfold trim, trimEnd.
  apply Forall_rev, Forall_trimStart, Forall_rev. by apply Forall_trimStart.
Qed.

Lemma Forall_tail_steps (s : jsstring) :
  Forall P s →
  Forall P (trim (replace_runs is_white_space [SPACE] s)).
Proof. intros H. by apply Forall_trim, Forall_replace_runs. Qed.

End Preserved.

Lemma blank_no_punctuation (s : jsstring) :
  Forall (λ c, is_punctuation c = false) (replace_class is_punctuation [SPACE] s).
Proof.
  unfold replace_class. induction s as [|c r IH]; simpl; [constructor|].
  destruct (is_punctuation c) eqn:Ec; simpl; by constructor.
Qed.

Lemma no_punctuation_fixed (s : jsstring) :
  Forall (λ c, is_punctuation c = false) s →
  replace_class is_punctuation [SPACE] s = s.
Proof.
  unfold replace_class. induction 1 as [|c r Hc _ IH]; simpl; [done|].
  by rewrite Hc, IH.
Qed.

Lemma spaced_replace_runs (b : bool) (s : jsstring) :
  spaced b (replace_runs_from is_white_space [SPACE] b s).
Proof.
  revert b. induction s as [|c r IH]; intros b; simpl; [done|].
  destruct (is_white_space c) eqn:Ec.
  - destruct b; simpl; [apply IH|]. repeat split. apply IH.
  - simpl. rewrite Ec. apply IH.
Qed.

Lemma spaced_fixed (b : bool) (s : jsstring) :
  spaced b s → replace_runs_from is_white_space [SPACE] b s = s.
Proof.
  revert b. induction s as [|c r IH]; intros b; simpl; [done|].
  destruct (is_white_space c).
  - intros (-> & -> & Hr). simpl. by rewrite IH.
  - intros Hr. by rewrite IH.
Qed.

Lemma spaced_trimStart (b b' : bool) (s : jsstring) :
  spaced b s → spaced b' (trimStart s).
Proof.
  revert b. induction s as [|c r IH]; intros b; simpl; [done|].
  destruct (is_white_space c) eqn:Ec.
  - intros (_ & _ & Hr). by apply (IH true).
  - intros Hr. simpl. by rewrite Ec.
Qed.

Lemma spaced_app_l (b : bool) (x y : jsstring) : spaced b (x ++ y) → spaced b x.
Proof.
  revert b. induction x as [|c r IH]; intros b; simpl; [done|].
  destruct (is_white_space c).
  - intros (? & ? & Hr). repeat split; try done. by apply IH.
  - apply IH.
Qed.

Lemma spaced_trim (b : bool) (s : jsstring) : spaced b s → spaced false (trim s).
Proof.
  intros H. unfold trim.
  destruct (trimEnd_prefix (trimStart s)) as (q & Hq & _).
  apply (spaced_app_l _ _ q). rewrite <- Hq. by apply (spaced_trimStart b).
Qed.

(** The three steps after the lowercasing leave their own output alone. *)
Lemma tail_steps_fixed (s : jsstring) :
  let t := trim (replace_runs is_white_space [SPACE]
                   (replace_class is_punctuation [SPACE] s)) in
  trim (replace_runs is_white_space [SPACE]
          (replace_class is_punctuation [SPACE] t)) = t.
Proof.
  intros t.
  assert (Hp : Forall (λ c, is_punctuation c = false) t).
  { apply Forall_tail_steps; [done|]. apply blank_no_punctuation. }
  assert (Hs : spaced false t).
  { apply (spaced_trim false). apply spaced_replace_runs. }
  rewrite (no_punctuation_fixed t Hp). unfold replace_runs.
  rewrite (spaced_fixed false t Hs). apply trim_idem.
Qed.

(** *** The concrete Turkish lowercasing *)

Ltac z_cases :=
  repeat match goal with
    | |- context [?a =? ?b] => destruct (Z.eqb_spec a b)
    | |- context [?a <=? ?b] => destruct (Z.leb_spec a b)
    | |- context [?a <? ?b] => destruct (Z.ltb_spec a b)
    end; simpl in *; try lia.

Lemma settled_space : settled SPACE.
Proof. by split. Qed.

Lemma lower_unit_settled (c : Z) : c ≠ 0x49 → settled (lower_unit c).
Proof. intros Hc. unfold settled, lower_unit. split; z_cases. Qed.

Lemma tr_lower_settled_upto (n : nat) (s : jsstring) :
  (length s ≤ n)%nat → Forall settled (tr_lower s).
Proof.
  revert s. induction n as [|n IH]; intros [|c r] Hn; simpl in *;
    try constructor; try lia.
  destruct (Z.eqb_spec c 0x49) as [->|Hc].
  - destruct r as [|d r'].
    + repeat constructor; done.
    + destruct (d =? 0x307); constructor; try (by split); apply IH; simpl in *; lia.
  - constructor; [by apply lower_unit_settled|]. apply IH. lia.
Qed.

Lemma tr_lower_settled (s : jsstring) : Forall settled (tr_lower s).
Proof. by apply (tr_lower_settled_upto (length s)). Qed.

Lemma tr_lower_fixed (s : jsstring) : Forall settled s → tr_lower s = s.
Proof.
  induction 1 as [|c r [Hc Hu] _ IH]; simpl; [done|].
  destruct (Z.eqb_spec c 0x49); [done|]. by rewrite Hu, IH.
Qed.

Lemma tr_lower_normalized (s : jsstring) :
  tr_lower (normalize tr_lower s) = normalize tr_lower s.
Proof.
  apply tr_lower_fixed. unfold normalize.
  apply Forall_tail_steps; [apply settled_space|].
  apply Forall_replace_class; [apply settled_space|]. apply tr_lower_settled.
Qed.

Lemma tr_lower_plain (s : jsstring) :
  forallb is_plain_ascii s = true → tr_lower s = map ascii_lower s.
Proof.
  induction s as [|c r IH]; simpl; [done|].
  intros [Hc Hr]%andb_prop. rewrite <- (IH Hr).
  unfold is_plain_ascii in Hc. apply andb_prop in Hc as [[_ Hlt]%andb_prop Hc].
  apply negb_true_iff in Hc. apply Z.ltb_lt in Hlt. rewrite Hc. f_equal.
  unfold lower_unit, ascii_lower. clear Hc. z_cases.
Qed.

(** *** [split] *)

Lemma split_not_nil (sep : Z) (s : jsstring) : split sep s ≠ [].
Proof. destruct s as [|c r]; simpl; [done|]. destruct (c =? sep); [done|]. by destruct (split sep r). Qed.

Lemma split_pieces (P : Z → bool) (sep : Z) (s : jsstring) :
  forallb P s = true → ∀ v, In v (split sep s) → forallb P v = true.
Proof.
  induction s as [|c r IH]; simpl.
  - intros _ v [<-|[]]. done.
  - intros [Hc Hr]%andb_prop v. specialize (IH Hr).
    destruct (c =? sep).
    + intros [<-|Hv]; [done|]. by apply IH.
    + destruct (split sep r) as [|h t] eqn:Es.
      * intros [<-|[]]. simpl. by rewrite Hc.
      * intros [<-|Hv].
        -- simpl. rewrite Hc. apply IH. by left.
        -- apply IH. by right.
Qed.

(** The pieces are what stands between the separators. *)
Lemma join_split (sep : Z) (s : jsstring) : join sep (split sep s) = s.
Proof.
  induction s as [|c r IH]; simpl; [done|].
  destruct (Z.eqb_spec c sep) as [->|Hc].
  - pose proof (split_not_nil sep r) as Hne. simpl.
    destruct (split sep r) as [|h t]; [done|]. by rewrite IH.
  - pose proof (split_not_nil sep r) as Hne.
    destruct (split sep r) as [|h t]; [done|].
    simpl in *. destruct t; simpl in *; by rewrite <- IH.
Qed.

Lemma split_no_separator (sep : Z) (s : jsstring) :
  ∀ v, In v (split sep s) → ¬ In sep v.
Proof.
  induction s as [|c r IH]; simpl.
  - intros v [<-|[]]. by intros [].
  - destruct (Z.eqb_spec c sep) as [->|Hc].
    + intros v [<-|Hv]; [by intros []|]. by apply IH.
    + destruct (split sep r) as [|h t].
      * intros v [<-|[]]. intros [->|[]]. done.
      * intros v [<-|Hv].
        -- intros [->|Hin]; [done|]. apply (IH h); [by left|done].
        -- apply IH. by right.
Qed.

(** *** Where the locale does not matter *)

Section PlainAscii.

Variable lower : jsstring → jsstring.
Hypothesis lower_plain :
  ∀ s, forallb is_plain_ascii s = true → lower s = map ascii_lower s.

Lemma normalize_plain (s : jsstring) :
  forallb is_plain_ascii s = true →
  normalize lower s = normalize (map ascii_lower) s.
Proof. intros Hs. unfold normalize. rewrite or_empty_id. by rewrite lower_plain. Qed.

Lemma isCorrect_plain (userAnswer truth : jsstring) :
  forallb is_plain_ascii userAnswer = true →
  forallb is_plain_ascii truth = true →
  isCorrect lower userAnswer truth = isCorrect (map ascii_lower) userAnswer truth.
Proof.
  intros Hu Ht. unfold isCorrect. rewrite (normalize_plain _ Hu), or_empty_id.
  f_equal. apply map_ext_in. intros v Hv. apply normalize_plain.
  by apply (split_pieces _ PIPE truth).
Qed.

(** C9 (as the code has it): of the four results the specification lists,
    [isCorrect("Elma", "elma|elma.")] and [isCorrect(" Kitap ", "kitap")] are
    true and [isCorrect("kitaplar", "kitap")] is false, but
    [isCorrect("el ma", "elma")] is false: the inner space survives the
    normalization. This holds for whatever the lowercasing does outside
    plain ASCII. *)
Theorem matcher_examples :
  isCorrect lower (lit "Elma") (lit "elma|elma.") = true
  ∧ isCorrect lower (lit "el ma") (lit "elma") = false
  ∧ isCorrect lower (lit " Kitap ") (lit "kitap") = true
  ∧ isCorrect lower (lit "kitaplar") (lit "kitap") = false.
Proof. repeat split; by rewrite isCorrect_plain. Qed.

End PlainAscii.

(** The Turkish lowercasing of this file is such a lowercasing. *)
Lemma matcher_examples_witness :
  isCorrect tr_lower (lit "Elma") (lit "elma|elma.") = true
  ∧ isCorrect tr_lower (lit "el ma") (lit "elma") = false
  ∧ isCorrect tr_lower (lit " Kitap ") (lit "kitap") = true
  ∧ isCorrect tr_lower (lit "kitaplar") (lit "kitap") = false.
Proof. exact (matcher_examples tr_lower tr_lower_plain). Defined.

(** C9 as stated fails: the answer "el ma" is not accepted for "elma". *)
Lemma el_ma_is_rejected :
  isCorrect tr_lower (lit "el ma") (lit "elma") = false.
Proof. vm_compute. reflexivity. Qed.

(** *** The claims on [isCorrect] and [normalize] *)

(** C1: [isCorrect(userAnswer, truth)] is true exactly when the normalized
    user answer equals the normalization of some variant of [truth] (one of
    the pieces of [truth] split on the bar) whose normalization is not
    empty; the normalization being the one the specification words:
    lowercase for the Turkish locale, punctuation blanked, whitespace runs
    collapsed, ends trimmed. *)
Theorem isCorrect_iff_some_variant (lower : jsstring → jsstring)
    (userAnswer truth : jsstring) :
  isCorrect lower userAnswer truth = true
  ↔ ∃ variant, In variant (split PIPE truth)
       ∧ spec_normalize lower variant ≠ []
       ∧ spec_normalize lower userAnswer = spec_normalize lower variant.
Proof.
  rewrite isCorrect_normalize.
  split; intros (v & Hv & Hne & Heq); exists v;
    rewrite ?normalize_spec in *; rewrite <- ?normalize_spec in *; done.
Qed.

Section Idempotence.

Variable lower : jsstring → jsstring.

(** What is asked of the built-in: a normalized string, which is made of
    code units of a lowercased string and of single spaces, is already in
    lower case. *)
Hypothesis lower_normalized : ∀ s, lower (normalize lower s) = normalize lower s.

Lemma normalize_normalize (s : jsstring) :
  normalize lower (normalize lower s) = normalize lower s.
Proof.
  unfold normalize at 1. rewrite or_empty_id, lower_normalized.
  unfold normalize. apply tail_steps_fixed.
Qed.

(** C10: [normalize] is idempotent, and so [isCorrect] gives the same
    verdict on a raw and on an already normalized user answer. *)
Theorem normalize_idempotent (s truth : jsstring) :
  normalize lower (normalize lower s) = normalize lower s
  ∧ isCorrect lower (normalize lower s) truth = isCorrect lower s truth.
Proof.
  split; [apply normalize_normalize|].
  unfold isCorrect. by rewrite normalize_normalize.
Qed.

End Idempotence.

(** The witness string is " IŞIK, İ!" in code units. *)
Lemma normalize_idempotent_witness :
  let s := [0x20; 0x49; 0x15E; 0x49; 0x4B; 0x2C; 0x20; 0x130; 0x21] in
  normalize tr_lower (normalize tr_lower s) = normalize tr_lower s
  ∧ isCorrect tr_lower (normalize tr_lower s) (lit "kitap")
    = isCorrect tr_lower s (lit "kitap").
Proof. exact (normalize_idempotent tr_lower tr_lower_normalized _ _). Defined.

Example normalize_isik :
  normalize tr_lower [0x20; 0x49; 0x15E; 0x49; 0x4B; 0x2C; 0x20; 0x130; 0x21]
  = [0x131; 0x15F; 0x131; 0x6B; 0x20; 0x69].
Proof. reflexivity. Qed.

(** *** Further facts on [normalize] and [isCorrect] *)

(** X1: whatever the lowercasing gives, a normalized string holds no
    character of the punctuation class, its only whitespace characters are
    single spaces, none next to another, and it neither starts nor ends
    with one. *)
Theorem normalize_shape (lower : jsstring → jsstring) (s : jsstring) :
  Forall (λ c, is_punctuation c = false) (normalize lower s)
  ∧ spaced false (normalize lower s)
  ∧ starts_clean (normalize lower s)
  ∧ ends_clean (normalize lower s).
Proof.
  unfold normalize. split; [|split; [|split]].
  - apply Forall_tail_steps; [done|]. apply blank_no_punctuation.
  - apply (spaced_trim false). apply spaced_replace_runs.
  - unfold trim. apply trimEnd_starts_clean.
    by destruct (trimStart_decompose
                   (replace_runs is_white_space [SPACE]
                      (replace_class is_punctuation [SPACE] (lower (or_empty s)))))
      as (p & _ & _ & Hc).
  - unfold ends_clean, trim, trimEnd. rewrite rev_involutive.
    by destruct (trimStart_decompose
                   (rev (trimStart
                      (replace_runs is_white_space [SPACE]
                         (replace_class is_punctuation [SPACE] (lower (or_empty s)))))))
      as (p & _ & _ & Hc).
Qed.

Lemma isCorrect_normalize_nil (lower : jsstring → jsstring) (userAnswer truth : jsstring) :
  normalize lower userAnswer = [] → isCorrect lower userAnswer truth = false.
Proof.
  intros He. apply not_true_is_false. intros Hc.
  apply isCorrect_normalize in Hc as (v & _ & Hne & Heq). congruence.
Qed.

(** X2: an answer whose normalization is empty (nothing but whitespace and
    punctuation once lowercased) is never correct, whatever the truth. *)
Theorem isCorrect_empty_answer (lower : jsstring → jsstring) (userAnswer truth : jsstring) :
  normalize lower userAnswer = [] → isCorrect lower userAnswer truth = false.
Proof. apply isCorrect_normalize_nil. Qed.

Lemma isCorrect_empty_answer_witness :
  normalize tr_lower (lit " ...! ") = []
  ∧ isCorrect tr_lower (lit " ...! ") (lit "elma|...") = false.
Proof.
  split; [reflexivity|].
  exact (isCorrect_empty_answer tr_lower (lit " ...! ") (lit "elma|...") eq_refl).
Defined.

(** X3: the verdict depends on the set of variants only: two truths with
    the same pieces between their bars, in any order and any number of
    times, accept the same answers. *)
Theorem isCorrect_same_variants (lower : jsstring → jsstring)
    (userAnswer truth1 truth2 : jsstring) :
  (∀ v, In v (split PIPE truth1) ↔ In v (split PIPE truth2)) →
  isCorrect lower userAnswer truth1 = isCorrect lower userAnswer truth2.
Proof.
  intros Hv. apply eq_true_iff_eq. rewrite !isCorrect_normalize.
  split; intros (v & Hin & H); exists v; (split; [by apply Hv|done]).
Qed.

Lemma isCorrect_same_variants_witness :
  isCorrect tr_lower (lit "Alma") (lit "elma|alma")
  = isCorrect tr_lower (lit "Alma") (lit "alma|elma|alma").
Proof.
  apply (isCorrect_same_variants tr_lower).
  intros v. simpl. tauto.
Defined.

Section BarsOnly.

Variable lower : jsstring → jsstring.
Hypothesis lower_nil : lower [] = [].

Lemma split_only_bars (truth : jsstring) :
  only_bars truth = true → ∀ v, In v (split PIPE truth) → v = [].
Proof.
  unfold only_bars. induction truth as [|c r IH]; simpl.
  - intros _ v [<-|[]]. done.
  - intros [Hc Hr]%andb_prop. rewrite Hc. intros v [<-|Hv]; [done|]. by apply IH.
Qed.

(** X4: a truth that is empty or made of bars only accepts no answer. *)
Theorem isCorrect_only_bars (userAnswer truth : jsstring) :
  only_bars truth = true → isCorrect lower userAnswer truth = false.
Proof.
  intros Hb. apply not_true_is_false. intros Hc.
  apply isCorrect_normalize in Hc as (v & Hv & Hne & _).
  rewrite (split_only_bars truth Hb v Hv) in Hne. apply Hne.
  unfold normalize. simpl. by rewrite lower_nil.
Qed.

End BarsOnly.

Lemma isCorrect_only_bars_witness :
  isCorrect tr_lower (lit "elma") (lit "||") = false.
Proof. exact (isCorrect_only_bars tr_lower eq_refl (lit "elma") (lit "||") eq_refl). Defined.

End MatcherFacts.

(** ** HintEngine *)

Module HintFacts.
Import HintEngine.

Lemma getHint_loop_mask (revealedCount i : Z) (rest result : jsstring) :
  getHint_loop revealedCount i rest result = result ++ mask_from revealedCount i rest.
Proof.
  revert i result. induction rest as [|c r IH]; intros i result; simpl.
  - by rewrite app_nil_r.
  - rewrite IH. destruct ((i <? revealedCount) || (c =? SPACE));
      by rewrite <- app_assoc.
Qed.

Lemma getHint_mask_from (word : jsstring) (revealedCount : Z) :
  getHint word revealedCount = mask_from revealedCount 0 word.
Proof. destruct word; [done|]. unfold getHint. by rewrite getHint_loop_mask. Qed.

Lemma mask_from_length (revealedCount i : Z) (rest : jsstring) :
  length (mask_from revealedCount i rest) = length rest.
Proof. revert i. induction rest as [|c r IH]; intros i; simpl; [done|]. by rewrite IH. Qed.

Lemma mask_from_lookup (revealedCount i : Z) (rest : jsstring) (n : nat) (c : Z) :
  rest !! n = Some c →
  mask_from revealedCount i rest !! n
  = Some (if (i + Z.of_nat n <? revealedCount) || (c =? SPACE) then c else DOT).
Proof.
  revert i n. induction rest as [|d r IH]; intros i n; [done|].
  destruct n as [|n]; simpl.
  - intros [= ->]. by rewrite Z.add_0_r.
  - intros Hn. etrans; [by apply IH|].
    by replace (i + 1 + Z.of_nat n) with (i + Z.of_nat (S n)) by lia.
Qed.

(** C6: the hint has the length of [truth]; the character at index [i] is
    kept when [i < revealedCount] or when it is a space, and is a dot
    otherwise; ["kalem"] at 2 gives ["ka..."] and ["iki kere"] at 1 gives
    ["i.. ...."]. *)
Theorem getHint_masks (truth : jsstring) (revealedCount : Z) :
  length (getHint truth revealedCount) = length truth
  ∧ (∀ (i : nat) (c : Z), truth !! i = Some c →
       getHint truth revealedCount !! i
       = Some (if (Z.of_nat i <? revealedCount) || (c =? SPACE) then c else DOT))
  ∧ getHint (lit "kalem") 2 = lit "ka..."
  ∧ getHint (lit "iki kere") 1 = lit "i.. ....".
Proof.
  rewrite getHint_mask_from. split; [apply mask_from_length|].
  split; [|by split].
  intros i c Hi. by rewrite (mask_from_lookup _ 0 _ i c Hi).
Qed.

(** *** Further facts on [getHint] *)

Lemma mask_from_lookup_fmap (revealedCount i : Z) (rest : jsstring) (n : nat) :
  mask_from revealedCount i rest !! n
  = (λ c, if (i + Z.of_nat n <? revealedCount) || (c =? SPACE) then c else DOT)
      <$> rest !! n.
Proof.
  destruct (rest !! n) as [c|] eqn:Hn; simpl.
  - by apply mask_from_lookup.
  - apply lookup_ge_None. rewrite mask_from_length. by apply lookup_ge_None.
Qed.

Lemma mask_from_all (revealedCount i : Z) (rest : jsstring) :
  i + Z.of_nat (length rest) ≤ revealedCount → mask_from revealedCount i rest = rest.
Proof.
  revert i. induction rest as [|c r IH]; intros i Hk; simpl in *; [done|].
  destruct (Z.ltb_spec i revealedCount); [|lia]. simpl. f_equal. apply IH. lia.
Qed.

Lemma getHint_full (word : jsstring) (revealedCount : Z) :
  Z.of_nat (length word) ≤ revealedCount → getHint word revealedCount = word.
Proof. intros Hk. rewrite getHint_mask_from. by apply mask_from_all. Qed.

(** X5: once the hint level has reached the length of the word the hint is
    the word itself. *)
Theorem getHint_reveals_all (word : jsstring) (revealedCount : Z) :
  Z.of_nat (length word) ≤ revealedCount → getHint word revealedCount = word.
Proof. intros Hk. rewrite getHint_mask_from. by apply mask_from_all. Qed.

Lemma getHint_reveals_all_witness :
  getHint (lit "iki kere") 8 = lit "iki kere".
Proof. apply getHint_reveals_all. simpl. lia. Defined.

(** X6: one more hint uncovers the next character and changes nothing
    else: the hint at level [k + 1] is the hint at level [k] with the
    character at index [k] put in. *)
Theorem getHint_next_level (word : jsstring) (k : nat) (c : Z) :
  word !! k = Some c →
  getHint word (Z.of_nat k + 1) = <[k:=c]> (getHint word (Z.of_nat k)).
Proof.
  intros Hk. rewrite !getHint_mask_from. unfold jsstring in *.
  apply list_eq. intros i.
  destruct (decide (i = k)) as [->|Hne].
  - rewrite list_lookup_insert_eq
      by (rewrite mask_from_length; by apply lookup_lt_Some with c).
    rewrite (mask_from_lookup _ 0 _ k c Hk).
    destruct (Z.ltb_spec (0 + Z.of_nat k) (Z.of_nat k + 1)); [done|lia].
  - rewrite list_lookup_insert_ne by done. rewrite !mask_from_lookup_fmap.
    assert (Hlt : (0 + Z.of_nat i <? Z.of_nat k + 1) = (0 + Z.of_nat i <? Z.of_nat k)).
    { destruct (Z.ltb_spec (0 + Z.of_nat i) (Z.of_nat k + 1)),
               (Z.ltb_spec (0 + Z.of_nat i) (Z.of_nat k)); try done; lia. }
    by rewrite Hlt.
Qed.

Lemma getHint_next_level_witness :
  getHint (lit "kalem") 3 = <[2%nat:=0x6C]> (getHint (lit "kalem") 2).
Proof. exact (getHint_next_level (lit "kalem") 2 0x6C eq_refl). Defined.

(** *** [syllabify] *)

Lemma hyphenate_app (u v : jsstring) : hyphenate (u ++ v) = hyphenate u ++ hyphenate v.
Proof. unfold hyphenate. apply flat_map_app. Qed.

Lemma strip_final_hyphen_snoc (s : jsstring) (c : Z) :
  strip_final_hyphen (s ++ [c]) = s ++ (if c =? HYPHEN then [] else [c]).
Proof.
  unfold strip_final_hyphen. rewrite rev_app_distr. simpl.
  destruct (c =? HYPHEN); [|done]. by rewrite rev_involutive, app_nil_r.
Qed.

Lemma vowel_not_hyphen (c : Z) : is_vowel c = true → (c =? HYPHEN) = false.
Proof.
  unfold is_vowel. intros Hv. apply bool_decide_eq_true in Hv.
  apply list_elem_of_In in Hv. simpl in Hv.
  repeat (destruct Hv as [<-|Hv]; [done|]). done.
Qed.

(** X7: a hyphen follows every vowel of the word except a vowel that is its
    last character, and a hyphen that ends the word is dropped: with [c]
    the last character, the result is the part before [c], hyphenated,
    followed by [c] unless [c] is a hyphen. *)
Theorem syllabify_last (word : jsstring) (c : Z) :
  syllabify (word ++ [c])
  = hyphenate word ++ (if c =? HYPHEN then [] else [c]).
Proof.
  assert (Hs : syllabify (word ++ [c]) = strip_final_hyphen (hyphenate (word ++ [c])))
    by (by destruct word).
  rewrite Hs, hyphenate_app. unfold hyphenate at 2. simpl.
  destruct (is_vowel c) eqn:Hv.
  - rewrite (vowel_not_hyphen c Hv).
    change ([c; HYPHEN] ++ []) with ([c] ++ [HYPHEN]).
    rewrite app_assoc, strip_final_hyphen_snoc. simpl. by rewrite app_nil_r.
  - simpl. by rewrite strip_final_hyphen_snoc.
Qed.

(** X8: [syllabify] changes hyphens only: with the hyphens taken out, the
    result is the word with its hyphens taken out. *)
Theorem syllabify_hyphens_only (word : jsstring) :
  List.filter not_hyphen (syllabify word) = List.filter not_hyphen word.
Proof.
  assert (Hh : ∀ w, List.filter not_hyphen (hyphenate w) = List.filter not_hyphen w).
  { induction w as [|d w IH]; [done|].
    change (d :: w) with ([d] ++ w). rewrite hyphenate_app, !List.filter_app, IH.
    f_equal. unfold hyphenate. simpl. destruct (is_vowel d) eqn:Hv; [|done].
    simpl. unfold not_hyphen at 1 2. rewrite (vowel_not_hyphen d Hv). done. }
  destruct word as [|d w] using rev_ind; [done|].
  rewrite syllabify_last, !List.filter_app, Hh. f_equal. simpl.
  unfold not_hyphen. destruct (d =? HYPHEN) eqn:Hd; simpl; [done|]. by rewrite Hd.
Qed.

Example syllabify_kalem : syllabify (lit "kalem") = lit "ka-le-m".
Proof. reflexivity. Qed.

Example syllabify_elma : syllabify (lit "elma") = lit "e-lma".
Proof. reflexivity. Qed.

End HintFacts.

(** ** The session *)

Module SessionFacts.
Import Session.

(** *** [shuffle] *)

Lemma floor_times_le (u : Random) (i : nat) : (floor_times u (i + 1) ≤ i)%nat.
Proof.
  unfold floor_times. apply Nat.lt_succ_r.
  apply Nat.Div0.div_lt_upper_bound. nia.
Qed.

Lemma swap_in_range {A : Type} (a : list A) (i j : nat) :
  (i < length a)%nat → (j ≤ i)%nat →
  ∃ x y, a !! i = Some x ∧ a !! j = Some y ∧ swap a i j = <[j:=x]> (<[i:=y]> a).
Proof.
  intros Hi Hj.
  destruct (lookup_lt_is_Some_2 a i Hi) as [x Hx].
  destruct (lookup_lt_is_Some_2 a j) as [y Hy]; [lia|].
  exists x, y. unfold swap. by rewrite Hx, Hy.
Qed.

Lemma swap_Permutation {A : Type} (a : list A) (i j : nat) : swap a i j ≡ₚ a.
Proof.
  unfold swap. destruct (a !! i) as [x|] eqn:Hx; [|done].
  destruct (a !! j) as [y|] eqn:Hy; [|done].
  by apply Permutation_insert_swap.
Qed.

Lemma shuffle_loop_Permutation {A : Type} (random : nat → Random) (i : nat) (a : list A) :
  shuffle_loop random i a ≡ₚ a.
Proof.
  revert a. induction i as [|i IH]; intros a; simpl; [done|].
  rewrite IH. apply swap_Permutation.
Qed.

Lemma shuffle_Permutation {A : Type} (random : nat → Random) (array : list A) :
  shuffle random array ≡ₚ array.
Proof. apply shuffle_loop_Permutation. Qed.

Lemma shuffle_length {A : Type} (random : nat → Random) (array : list A) :
  length (shuffle random array) = length array.
Proof. apply Permutation_length, shuffle_Permutation. Qed.

(** *** [slice] as [onPass] uses it *)

Lemma slice_before {A : Type} (a : list A) (z : Z) :
  0 ≤ z ≤ Z.of_nat (length a) →
  slice a (Int 0) (Some (Int z)) = take (Z.to_nat z) a.
Proof.
  intros Hz. unfold slice, relative_index. simpl.
  destruct (Z.ltb_spec z 0); [lia|].
  rewrite Z.min_l, Z.min_l by lia. simpl. f_equal. lia.
Qed.

Lemma slice_after {A : Type} (a : list A) (z : Z) :
  0 ≤ z ≤ Z.of_nat (length a) →
  slice a (Int z) None = drop (Z.to_nat z) a.
Proof.
  intros Hz. unfold slice, relative_index. simpl.
  destruct (Z.ltb_spec z 0); [lia|].
  rewrite Z.min_l by lia. apply take_ge. rewrite length_drop. lia.
Qed.

(** Every iteration of the loop of [shuffle] swaps two elements that are
    there. *)
Lemma shuffle_step_in_range {A : Type} (random : nat → Random) (a : list A) (i : nat) :
  (i < length a)%nat →
  ∃ x y, a !! i = Some x
         ∧ a !! floor_times (random i) (i + 1) = Some y
         ∧ swap a i (floor_times (random i) (i + 1))
           = <[floor_times (random i) (i + 1):=x]> (<[i:=y]> a).
Proof. intros Hi. apply swap_in_range; [done|]. apply floor_times_le. Qed.

(** *** One handler at a time *)

Lemma current_in_range (st : State) (z : Z) :
  idx st = Int z → 0 ≤ z < Z.of_nat (length (orderedWords st)) →
  orderedWords st !! Z.to_nat z = Some (current st).
Proof.
  intros Hi Hz. unfold current, array_get. rewrite Hi.
  destruct (Z.leb_spec 0 z); [|lia].
  destruct (lookup_lt_is_Some_2 (orderedWords st) (Z.to_nat z)) as [x Hx]; [lia|].
  by rewrite Hx.
Qed.

(** Passing moves the current item to the end. *)
Lemma onPass_order (st : State) (z : Z) :
  idx st = Int z → 0 ≤ z < Z.of_nat (length (orderedWords st)) →
  orderedWords (onPass st)
  = take (Z.to_nat z) (orderedWords st)
    ++ drop (S (Z.to_nat z)) (orderedWords st) ++ [current st].
Proof.
  intros Hi Hz. unfold onPass. simpl. rewrite Hi. simpl.
  rewrite slice_before, slice_after by lia.
  rewrite <- app_assoc. do 3 f_equal. lia.
Qed.

Lemma onPass_Permutation (st : State) :
  cursor_in_range st → orderedWords (onPass st) ≡ₚ orderedWords st.
Proof.
  intros (z & Hi & Hz). rewrite (onPass_order st z Hi Hz).
  pose proof (current_in_range st z Hi Hz) as Hc.
  rewrite <- (take_drop_middle _ _ _ Hc) at 3.
  apply Permutation_app_head. symmetry. apply Permutation_cons_append.
Qed.

Lemma onPass_in_range (st : State) : cursor_in_range st → cursor_in_range (onPass st).
Proof.
  intros Hr. pose proof (Permutation_length (onPass_Permutation st Hr)) as Hl.
  destruct Hr as (z & Hi & Hz). exists z. split; [done|]. rewrite Hl. done.
Qed.

Lemma goNext_in_range (st : State) (z : Z) :
  idx st = Int z → 0 ≤ z < Z.of_nat (length (orderedWords st)) →
  idx (goNext st) = Int ((z + 1) mod Z.of_nat (length (orderedWords st)))
  ∧ cursor_in_range (goNext st).
Proof.
  intros Hi Hz. unfold goNext, cursor_in_range. simpl. rewrite Hi. simpl.
  destruct (Z.eqb_spec (Z.of_nat (length (orderedWords st))) 0); [lia|].
  rewrite Z.rem_mod_nonneg by lia. split; [done|]. eexists. split; [done|].
  apply Z.mod_pos_bound. lia.
Qed.

Lemma onSubmit_cases (lower : jsstring → jsstring) (st : State) :
  onSubmit lower st = st
  ∨ onSubmit lower st = goNext (count_correct st)
  ∨ onSubmit lower st = reveal_wrong st.
Proof.
  unfold onSubmit. destruct (trim (answer st)); [by left|].
  destruct (Matcher.isCorrect _ _ _); auto.
Qed.

(** *** The load effect *)

Section Bank.

Variable wordsData : list Word.

Lemma restoredOrder_length (random : nat → Random) (parsed : Parsed) :
  length (restoredOrder wordsData random parsed) = length wordsData.
Proof.
  unfold restoredOrder. destruct (p_orderedWords parsed) as [| |ws];
    rewrite ?shuffle_length; try done.
  - case_bool_decide; [by rewrite shuffle_length | done].
  - case_bool_decide as Hl; [by rewrite shuffle_length | done].
Qed.

Lemma restoredOrder_Permutation (random : nat → Random) (parsed : Parsed) :
  order_of_bank wordsData parsed →
  restoredOrder wordsData random parsed ≡ₚ wordsData.
Proof.
  intros Hp. unfold restoredOrder. destruct (p_orderedWords parsed) as [| |ws] eqn:Eo.
  - case_bool_decide; [apply shuffle_Permutation | done].
  - apply shuffle_Permutation.
  - case_bool_decide as Hl; [apply shuffle_Permutation|]. by apply Hp.
Qed.

Lemma restoredOrder_rejected (random : nat → Random) (parsed : Parsed) :
  order_rejected wordsData parsed →
  restoredOrder wordsData random parsed = shuffle random wordsData.
Proof.
  unfold order_rejected, restoredOrder.
  destruct (p_orderedWords parsed) as [| |ws]; [done|done|].
  intros Hl. by rewrite bool_decide_eq_true_2.
Qed.

Lemma load_in_range (random : nat → Random) (parsed : Parsed) (st : State) :
  wordsData ≠ [] → cursor_not_negative parsed →
  cursor_in_range (load wordsData random (Snapshot parsed) st).
Proof.
  intros Hne Hp. unfold cursor_in_range. simpl. eexists. split; [done|].
  rewrite restoredOrder_length.
  assert (0 < Z.of_nat (length wordsData)) by (destruct wordsData; simpl; [done|lia]).
  assert (0 ≤ default 0 (p_idx parsed)).
  { destruct (p_idx parsed) as [i|] eqn:Ei; simpl; [by apply Hp | done]. }
  lia.
Qed.

End Bank.

(** *** Invariants of a run *)

Section Invariants.

Variable lower : jsstring → jsstring.
Variable wordsData : list Word.
Hypothesis bank_not_empty : wordsData ≠ [].

Lemma first_cursor_in_range (order : list Word) (st : State) :
  length (orderedWords st) = length order → order ≠ [] → idx st = Int 0 →
  cursor_in_range st.
Proof.
  intros Hl Hne Hi. exists 0. split; [done|]. rewrite Hl.
  destruct order; simpl; [done|lia].
Qed.

Lemma in_range_not_empty (st : State) : cursor_in_range st → orderedWords st ≠ [].
Proof. intros (z & _ & Hz) Hnil. rewrite Hnil in Hz. simpl in Hz. lia. Qed.

Lemma handle_in_range (e : Event) (st : State) :
  cursor_safe e → cursor_in_range st → cursor_in_range (handle lower wordsData e st).
Proof.
  intros He Hr. pose proof Hr as (z & Hi & Hz).
  destruct e as [text| | | | | |random|random| |random item]; simpl; try done.
  - destruct (onSubmit_cases lower st) as [->|[->| ->]]; try done.
    by apply (goNext_in_range (count_correct st) z).
  - by apply onPass_in_range.
  - by apply (goNext_in_range st z).
  - apply (first_cursor_in_range wordsData); try done. by apply shuffle_length.
  - apply (first_cursor_in_range (orderedWords st)); try done.
    + by apply shuffle_length.
    + by apply in_range_not_empty.
  - destruct item as [| |parsed]; try done. by apply load_in_range.
Qed.

Lemma handle_Permutation (e : Event) (st : State) :
  bank_safe wordsData e → cursor_in_range st → orderedWords st ≡ₚ wordsData →
  orderedWords (handle lower wordsData e st) ≡ₚ wordsData.
Proof.
  intros He Hr Hp.
  destruct e as [text| | | | | |random|random| |random item]; simpl; try done.
  - by destruct (onSubmit_cases lower st) as [->|[->| ->]].
  - transitivity (orderedWords st); [|done]. by apply onPass_Permutation.
  - apply shuffle_Permutation.
  - transitivity (orderedWords st); [|done]. apply shuffle_Permutation.
  - destruct item as [| |parsed]; try done.
    apply restoredOrder_Permutation. apply He.
Qed.

Lemma bank_safe_cursor_safe (e : Event) : bank_safe wordsData e → cursor_safe e.
Proof. destruct e as [| | | | | | | | |random [| |parsed]]; simpl; try done. by intros []. Qed.

(** C8 (as the code has it): with a word bank that is not empty, a cursor
    that is an index of the order stays one under every event, the advance
    and the restore from a stored snapshot included, as long as the cursor
    of a restored snapshot is absent or not negative: the load effect caps
    it from above only. *)
Theorem cursor_stays_in_range (es : list Event) (st : State) :
  cursor_in_range st → Forall cursor_safe es →
  cursor_in_range (run lower wordsData es st).
Proof.
  intros Hr Hes. revert st Hr. unfold run.
  induction Hes as [|e es He _ IH]; intros st Hr; simpl; [done|].
  apply IH. by apply handle_in_range.
Qed.

(** C2 (as the code has it): with a word bank that is not empty, the order
    stays a permutation of the bank under every sequence of events, the
    advance, the pass, the shuffle of the current order and the restore
    included, as long as every restored snapshot has a cursor that is absent
    or not negative and, when its order passes the length check, an order
    that is a permutation of the bank: the load effect checks the length of
    the stored order and nothing else. *)
Theorem order_stays_permutation (es : list Event) (st : State) :
  orderedWords st ≡ₚ wordsData → cursor_in_range st →
  Forall (bank_safe wordsData) es →
  orderedWords (run lower wordsData es st) ≡ₚ wordsData.
Proof.
  intros Hp Hr Hes. revert st Hp Hr. unfold run.
  induction Hes as [|e es He _ IH]; intros st Hp Hr; simpl; [done|].
  apply IH.
  - by apply handle_Permutation.
  - apply handle_in_range; [|done]. by apply bank_safe_cursor_safe.
Qed.

(** What the save effect writes can be restored. *)
Lemma saved_bank_safe (random : nat → Random) (st : State) :
  orderedWords st ≡ₚ wordsData → cursor_in_range st →
  bank_safe wordsData (Load random (Snapshot (saved st))).
Proof.
  intros Hp (z & Hi & Hz). split.
  - intros i. simpl. rewrite Hi. intros [= <-]. lia.
  - intros ws [= <-] _. done.
Qed.

Lemma load_saved (random : nat → Random) (st st' : State) :
  orderedWords st ≡ₚ wordsData → cursor_in_range st →
  let back := load wordsData random (Snapshot (saved st)) st' in
  orderedWords back = orderedWords st ∧ idx back = idx st
  ∧ stats back = stats st ∧ quizMode back = quizMode st.
Proof.
  intros Hp (z & Hi & Hz) back. pose proof (Permutation_length Hp) as Hl.
  assert (Ho : restoredOrder wordsData random (saved st) = orderedWords st).
  { unfold restoredOrder. simpl. by rewrite bool_decide_eq_false_2 by (by intros []). }
  subst back. simpl. rewrite Ho, Hi. repeat split. simpl. f_equal. lia.
Qed.

(** The state of the first render is a state these invariants start from. *)
Lemma initial_invariant (random : nat → Random) :
  orderedWords (initial wordsData random) ≡ₚ wordsData
  ∧ cursor_in_range (initial wordsData random).
Proof.
  split; [apply shuffle_Permutation|].
  apply (first_cursor_in_range wordsData); try done. apply shuffle_length.
Qed.

End Invariants.

Lemma cursor_stays_in_range_witness :
  cursor_in_range
    (run Matcher.tr_lower bank3
       [Pass; Next; ChangeText (lit "Elma"); Submit; Shuffle no_random;
        Load no_random (Snapshot snapshot_saved); Next]
       (session_at bank3 (Int 1) [])).
Proof.
  apply (cursor_stays_in_range Matcher.tr_lower bank3).
  - done.
  - exists 1. split; [reflexivity|]. simpl. lia.
  - repeat constructor. intros i [= <-]. lia.
Defined.

(** C8 as stated fails: a stored cursor of -1 is restored as it is. *)
Lemma negative_cursor_is_restored :
  idx (load bank3 no_random (Snapshot snapshot_negative) (initial bank3 no_random))
  = Int (-1)
  ∧ ¬ cursor_in_range
        (load bank3 no_random (Snapshot snapshot_negative) (initial bank3 no_random)).
Proof.
  split; [reflexivity|]. intros (z & Hi & Hz). simpl in Hi. injection Hi as <-. lia.
Qed.

Lemma order_stays_permutation_witness :
  orderedWords
    (run Matcher.tr_lower bank3
       [Pass; Next; Shuffle no_random; Load no_random (Snapshot snapshot_saved);
        Pass; Load no_random (Snapshot snapshot_short); Next]
       (initial bank3 no_random))
  ≡ₚ bank3.
Proof.
  apply (order_stays_permutation Matcher.tr_lower bank3).
  - done.
  - apply shuffle_Permutation.
  - exists 0. split; [reflexivity|]. simpl. lia.
  - repeat constructor; try (intros i [= <-]; lia).
    + intros ws [= <-] _. apply Permutation_cons_append.
    + intros ws [= <-] Hl. discriminate Hl.
Defined.

(** C2 as stated fails: a stored order of the right length that holds one
    word twice is restored as it is. *)
Lemma doubled_order_is_restored :
  orderedWords
    (run Matcher.tr_lower bank3 [Load no_random (Snapshot snapshot_doubled)]
       (initial bank3 no_random))
  = [word_a; word_a; word_c]
  ∧ ¬ ([word_a; word_a; word_c] ≡ₚ bank3).
Proof.
  split; [reflexivity|]. intros Hp.
  assert (Hb : word_b ∈ [word_a; word_a; word_c]).
  { rewrite Hp. unfold bank3. apply list_elem_of_In. simpl. auto. }
  apply list_elem_of_In in Hb. simpl in Hb.
  destruct Hb as [H|[H|[H|[]]]]; discriminate H.
Qed.

(** *** Passing and then advancing *)

Lemma iter_goNext_order (m : nat) (st : State) :
  orderedWords (Nat.iter m goNext st) = orderedWords st.
Proof. induction m as [|m IH]; simpl; done. Qed.

(** Before the end of the order an advance is a plain increment. *)
Lemma iter_goNext_idx (m : nat) (st : State) (c : Z) :
  idx st = Int c → 0 ≤ c →
  c + Z.of_nat m < Z.of_nat (length (orderedWords st)) →
  idx (Nat.iter m goNext st) = Int (c + Z.of_nat m).
Proof.
  intros Hi Hc. induction m as [|m IH]; intros Hm.
  - simpl. rewrite Hi. f_equal. lia.
  - change (Nat.iter (S m) goNext st) with (goNext (Nat.iter m goNext st)).
    unfold goNext at 1. simpl. rewrite IH, iter_goNext_order by lia. simpl.
    destruct (Z.eqb_spec (Z.of_nat (length (orderedWords st))) 0); [lia|].
    rewrite Z.rem_small by lia. f_equal. lia.
Qed.

Lemma shown_S (k : nat) (st : State) :
  shown (S k) st = shown k st ++ [current (Nat.iter k goNext st)].
Proof. unfold shown. by rewrite seq_S, map_app. Qed.

Lemma cursors_S (k : nat) (st : State) :
  cursors (S k) st = cursors k st ++ [idx (Nat.iter k goNext st)].
Proof. unfold cursors. by rewrite seq_S, map_app. Qed.

(** The items shown while advancing are the stretch of the order that
    starts at the cursor. *)
Lemma shown_stretch (k : nat) (st : State) (c : Z) :
  idx st = Int c → 0 ≤ c →
  c + Z.of_nat k ≤ Z.of_nat (length (orderedWords st)) →
  shown k st = take k (drop (Z.to_nat c) (orderedWords st))
  ∧ cursors k st = map (fun m => Int (c + Z.of_nat m)) (seq 0 k).
Proof.
  intros Hi Hc. induction k as [|k IH]; intros Hk; [done|].
  destruct IH as [IHs IHc]; [lia|].
  assert (Hidx : idx (Nat.iter k goNext st) = Int (c + Z.of_nat k))
    by (apply iter_goNext_idx; [done|done|lia]).
  split.
  - rewrite shown_S, IHs. symmetry. apply take_S_r.
    rewrite lookup_drop.
    replace (Z.to_nat c + k)%nat with (Z.to_nat (c + Z.of_nat k)) by lia.
    rewrite <- (iter_goNext_order k st).
    apply current_in_range; [done|]. rewrite iter_goNext_order. lia.
  - rewrite cursors_S, IHc, seq_S, map_app. simpl. by rewrite Hidx.
Qed.

(** C3 (as the code has it): after a pass at cursor [c] of an order of
    length [n], it takes [n - 1 - c] advances, not [n - 1], to bring the
    cursor back to the passed item, which then sits at the last index; on
    the way the items that stood after it are shown once each, in their
    order, and no other. When the cursor is 0 these are [n - 1] advances and
    all the other items. *)
Theorem pass_then_advance (st : State) (c : Z) :
  idx st = Int c → 0 ≤ c < total st →
  let k := Z.to_nat (total st - 1 - c) in
  let back := Nat.iter k goNext (onPass st) in
  idx back = Int (total st - 1)
  ∧ orderedWords back !! Z.to_nat (total st - 1) = Some (current st)
  ∧ current back = current st
  ∧ shown k (onPass st) = drop (S (Z.to_nat c)) (orderedWords st)
  ∧ cursors k (onPass st) = map (fun m => Int (c + Z.of_nat m)) (seq 0 k)
  ∧ (c = 0 → k = (length (orderedWords st) - 1)%nat).
Proof.
  intros Hi Hc k back. unfold total in *.
  pose proof (onPass_order st c Hi Hc) as Ho.
  assert (Hlen : length (orderedWords (onPass st)) = length (orderedWords st)).
  { apply Permutation_length, onPass_Permutation. by exists c. }
  assert (Hid : idx (onPass st) = Int c) by done.
  assert (Hback : idx back = Int (Z.of_nat (length (orderedWords st)) - 1)).
  { unfold back. rewrite (iter_goNext_idx k (onPass st) c Hid) by (rewrite ?Hlen; lia).
    f_equal. lia. }
  assert (Hlast : orderedWords back !! Z.to_nat (Z.of_nat (length (orderedWords st)) - 1)
                  = Some (current st)).
  { unfold back. rewrite iter_goNext_order, Ho, !app_assoc.
    rewrite lookup_app_r; rewrite length_app, length_take, length_drop; [|lia].
    replace (_ - _)%nat with 0%nat by lia. done. }
  split; [done|]. split; [done|]. split.
  { pose proof (current_in_range back _ Hback) as Hcur.
    unfold back in Hcur at 1. rewrite iter_goNext_order, Hlen in Hcur.
    specialize (Hcur ltac:(lia)). rewrite Hlast in Hcur. by injection Hcur. }
  destruct (shown_stretch k (onPass st) c Hid) as [Hs Hcs]; [lia|rewrite Hlen; lia|].
  split; [|split; [done|lia]].
  rewrite Hs, Ho, drop_app_length'; [|rewrite length_take; lia].
  apply take_app_length'. rewrite length_drop. lia.
Qed.

Lemma pass_then_advance_witness :
  let st := session_at bank3 (Int 1) [] in
  let back := Nat.iter 1 goNext (onPass st) in
  idx back = Int 2
  ∧ orderedWords back !! 2%nat = Some word_b
  ∧ current back = word_b
  ∧ shown 1 (onPass st) = [word_c]
  ∧ cursors 1 (onPass st) = [Int 1]
  ∧ (1 = 0 → 1%nat = 2%nat).
Proof.
  assert (Hr : 0 ≤ 1 < total (session_at bank3 (Int 1) []))
    by (unfold total; simpl; lia).
  exact (pass_then_advance (session_at bank3 (Int 1) []) 1 eq_refl Hr).
Defined.

(** C3 as stated fails: after a pass at cursor 1 of three items and two
    advances the cursor is at index 0, on an item that was not passed. *)
Lemma pass_in_the_middle_overshoots :
  let st := session_at bank3 (Int 1) [] in
  current st = word_b
  ∧ idx (Nat.iter (3 - 1) goNext (onPass st)) = Int 0
  ∧ current (Nat.iter (3 - 1) goNext (onPass st)) = word_a
  ∧ word_a ≠ word_b.
Proof. repeat split. discriminate. Qed.

(** *** Submitting *)

(** C4: while answering, a submit with an empty or whitespace-only answer
    changes nothing; with an answer that [isCorrect] accepts it adds one to
    [correct] and to nothing else, advances the cursor and leaves the
    answer hidden; with an answer that [isCorrect] rejects it adds one to
    [wrong] and to nothing else, reveals the answer and leaves the cursor
    where it is. *)
Theorem onSubmit_while_answering (lower : jsstring → jsstring) (st : State) :
  revealed st = false →
  let st' := onSubmit lower st in
  (forallb is_white_space (answer st) = true → st' = st)
  ∧ (forallb is_white_space (answer st) = false →
     Matcher.isCorrect lower (answer st) (correctAnswer st) = true →
     stats st' = {| correct := correct (stats st) + 1;
                    wrong := wrong (stats st);
                    passed := passed (stats st) |}
     ∧ idx st' = num_rem (num_add (idx st) (Int 1)) (Int (total st))
     ∧ orderedWords st' = orderedWords st
     ∧ revealed st' = false)
  ∧ (forallb is_white_space (answer st) = false →
     Matcher.isCorrect lower (answer st) (correctAnswer st) = false →
     stats st' = {| correct := correct (stats st);
                    wrong := wrong (stats st) + 1;
                    passed := passed (stats st) |}
     ∧ idx st' = idx st
     ∧ orderedWords st' = orderedWords st
     ∧ revealed st' = true).
Proof.
  intros _ st'. subst st'. unfold onSubmit.
  destruct (trim (answer st)) as [|c t] eqn:Et.
  - apply JsFacts.trim_nil_iff in Et. rewrite Et.
    split; [done|]. split; intros H; discriminate H.
  - assert (Hw : forallb is_white_space (answer st) = false).
    { destruct (forallb is_white_space (answer st)) eqn:E; [|done].
      apply JsFacts.trim_nil_iff in E. congruence. }
    rewrite Hw. split; [intros H; discriminate H|].
    split; intros _ ->; done.
Qed.

Lemma onSubmit_while_answering_witness :
  let st := session_at bank3 (Int 2) (lit " Kalem ") in
  let st' := onSubmit Matcher.tr_lower st in
  (forallb is_white_space (answer st) = true → st' = st)
  ∧ (forallb is_white_space (answer st) = false →
     Matcher.isCorrect Matcher.tr_lower (answer st) (correctAnswer st) = true →
     stats st' = {| correct := 1; wrong := 0; passed := 0 |}
     ∧ idx st' = Int 0
     ∧ orderedWords st' = bank3
     ∧ revealed st' = false)
  ∧ (forallb is_white_space (answer st) = false →
     Matcher.isCorrect Matcher.tr_lower (answer st) (correctAnswer st) = false →
     stats st' = {| correct := 0; wrong := 1; passed := 0 |}
     ∧ idx st' = Int 2
     ∧ orderedWords st' = bank3
     ∧ revealed st' = true).
Proof.
  exact (onSubmit_while_answering Matcher.tr_lower
           (session_at bank3 (Int 2) (lit " Kalem ")) eq_refl).
Defined.

Example submit_kalem :
  onSubmit Matcher.tr_lower (session_at bank3 (Int 2) (lit " Kalem "))
  = {| orderedWords := bank3; idx := Int 0; answer := []; revealed := false;
       stats := {| correct := 1; wrong := 0; passed := 0 |};
       loaded := true; quizMode := en2tr; hintCount := 0 |}.
Proof. reflexivity. Qed.

(** *** A stored order that the load effect replaces *)

(** C5 (as the code has it): when the stored order is no array or has not
    the length of the word bank, the load effect replaces the order, and
    only the order: it becomes a fresh shuffle of the word bank, a
    permutation of it, while the stored counters (zero only when the
    snapshot has none), the stored cursor (capped at the last index) and the
    stored mode are taken over. *)
Theorem load_replaces_order_only (wordsData : list Word) (random : nat → Random)
    (parsed : Parsed) (st : State) :
  order_rejected wordsData parsed →
  let st' := load wordsData random (Snapshot parsed) st in
  orderedWords st' = shuffle random wordsData
  ∧ orderedWords st' ≡ₚ wordsData
  ∧ stats st' = default zero_stats (p_stats parsed)
  ∧ idx st' = Int (Z.min (default 0 (p_idx parsed)) (Z.of_nat (length wordsData) - 1))
  ∧ quizMode st' = default en2tr (p_quizMode parsed).
Proof.
  intros Hr st'. subst st'. simpl.
  rewrite restoredOrder_length, (restoredOrder_rejected _ _ _ Hr).
  repeat split. apply shuffle_Permutation.
Qed.

Lemma load_replaces_order_only_witness :
  let st' := load bank3 no_random (Snapshot snapshot_short) (initial bank3 no_random) in
  orderedWords st' = shuffle no_random bank3
  ∧ orderedWords st' ≡ₚ bank3
  ∧ stats st' = {| correct := 3; wrong := 1; passed := 2 |}
  ∧ idx st' = Int 2
  ∧ quizMode st' = tr2en.
Proof.
  assert (Hr : order_rejected bank3 snapshot_short)
    by (unfold order_rejected; simpl; lia).
  exact (load_replaces_order_only bank3 no_random snapshot_short
           (initial bank3 no_random) Hr).
Defined.

(** C5 as stated fails: the counters of a snapshot whose order is too short
    are restored, not reset. *)
Lemma rejected_order_keeps_stats :
  order_rejected bank3 snapshot_short
  ∧ stats (load bank3 no_random (Snapshot snapshot_short) (initial bank3 no_random))
    = {| correct := 3; wrong := 1; passed := 2 |}
  ∧ stats (load bank3 no_random (Snapshot snapshot_short) (initial bank3 no_random))
    ≠ zero_stats.
Proof.
  split; [unfold order_rejected; simpl; lia|]. split; [reflexivity|discriminate].
Qed.

(** *** An empty word bank *)

Lemma current_of_nothing (st : State) : orderedWords st = [] → current st = placeholder.
Proof.
  intros He. unfold current, array_get. rewrite He.
  destruct (idx st) as [z|]; [|done]. by destruct (0 <=? z).
Qed.

Section EmptyBank.

Variable lower : jsstring → jsstring.
Hypothesis lower_plain :
  ∀ s, forallb is_plain_ascii s = true → lower s = map ascii_lower s.

(** No answer matches the placeholder: its normalization is empty. *)
Lemma placeholder_never_matches (st : State) (typed : jsstring) :
  orderedWords st = [] → Matcher.isCorrect lower typed (correctAnswer st) = false.
Proof.
  intros He. assert (Hc : correctAnswer st = lit "-").
  { unfold correctAnswer. rewrite (current_of_nothing st He). by destruct (quizMode st). }
  rewrite Hc. unfold Matcher.isCorrect.
  change (split Matcher.PIPE (or_empty (lit "-"))) with [lit "-"]. simpl map.
  rewrite (MatcherFacts.normalize_plain lower lower_plain (lit "-")) by done.
  done.
Qed.

(** X23: with an empty order the current item is the placeholder, whatever
    the cursor; revealing and asking for a hint leave order, cursor and
    counters as they are, and so does the submit of an empty or
    whitespace-only answer; the submit of any other answer is judged against
    the placeholder, which nothing matches: it adds one to [wrong] and to
    no other counter, reveals, and leaves order and cursor as they are. *)
Theorem empty_order_operations (st : State) :
  orderedWords st = [] →
  current st = placeholder
  ∧ (orderedWords (onReveal st) = [] ∧ idx (onReveal st) = idx st
     ∧ stats (onReveal st) = stats st)
  ∧ (orderedWords (onHint st) = [] ∧ idx (onHint st) = idx st
     ∧ stats (onHint st) = stats st)
  ∧ (forallb is_white_space (answer st) = true → onSubmit lower st = st)
  ∧ (forallb is_white_space (answer st) = false →
     onSubmit lower st = reveal_wrong st
     ∧ orderedWords (onSubmit lower st) = []
     ∧ idx (onSubmit lower st) = idx st
     ∧ stats (onSubmit lower st)
       = {| correct := correct (stats st);
            wrong := wrong (stats st) + 1;
            passed := passed (stats st) |}
     ∧ revealed (onSubmit lower st) = true).
Proof.
  intros He. split; [by apply current_of_nothing|].
  split; [done|]. split; [done|].
  unfold onSubmit. destruct (trim (answer st)) as [|c t] eqn:Et.
  - apply JsFacts.trim_nil_iff in Et. rewrite Et. split; [done|]. intros H. discriminate H.
  - rewrite (placeholder_never_matches st (answer st) He).
    split; [|by intros _].
    intros Hw. apply JsFacts.trim_nil_iff in Hw. congruence.
Qed.

End EmptyBank.

Lemma empty_order_operations_witness :
  let st := session_at [] (Int 0) (lit "elma") in
  current st = placeholder
  ∧ (orderedWords (onReveal st) = [] ∧ idx (onReveal st) = idx st
     ∧ stats (onReveal st) = stats st)
  ∧ (orderedWords (onHint st) = [] ∧ idx (onHint st) = idx st
     ∧ stats (onHint st) = stats st)
  ∧ (forallb is_white_space (answer st) = true → onSubmit Matcher.tr_lower st = st)
  ∧ (forallb is_white_space (answer st) = false →
     onSubmit Matcher.tr_lower st = reveal_wrong st
     ∧ orderedWords (onSubmit Matcher.tr_lower st) = []
     ∧ idx (onSubmit Matcher.tr_lower st) = idx st
     ∧ stats (onSubmit Matcher.tr_lower st)
       = {| correct := 0; wrong := 0 + 1; passed := 0 |}
     ∧ revealed (onSubmit Matcher.tr_lower st) = true).
Proof.
  exact (empty_order_operations Matcher.tr_lower MatcherFacts.tr_lower_plain
           (session_at [] (Int 0) (lit "elma")) eq_refl).
Defined.

(** C7: the code does not do what the claim says. It provides for the empty
    word bank (the placeholder of [current], the guard of the progress),
    but its handlers do not: on the empty order of the first render a pass
    puts the placeholder into the order, which then has one item, and
    counts a pass, and an advance computes [1 % 0] and turns the cursor into
    [NaN]; neither is a no-op. *)
Lemma empty_order_is_changed :
  orderedWords (initial [] no_random) = []
  ∧ orderedWords (onPass (initial [] no_random)) = [placeholder]
  ∧ passed (stats (onPass (initial [] no_random))) = 1
  ∧ idx (goNext (initial [] no_random)) = NaN.
Proof. repeat split. Qed.

(** *** What [shuffle] can return *)

(** X9: whatever [Math.random] returns, [shuffle] returns a permutation of
    its argument, of the same length. *)
Theorem shuffle_permutes {A : Type} (random : nat → Random) (array : list A) :
  shuffle random array ≡ₚ array ∧ length (shuffle random array) = length array.
Proof. split; [apply shuffle_Permutation | apply shuffle_length]. Qed.

Lemma floor_times_pick (j i : nat) :
  (j ≤ i)%nat → floor_times {| r_num := j; r_gap := i - j |} (i + 1) = j.
Proof.
  intros Hj. unfold floor_times. simpl.
  replace (j + (i - j) + 1)%nat with (i + 1)%nat by lia.
  apply Nat.div_mul. lia.
Qed.

Lemma shuffle_loop_ext {A : Type} (random1 random2 : nat → Random) (i : nat) (a : list A) :
  (∀ k, (1 ≤ k ≤ i)%nat → random1 k = random2 k) →
  shuffle_loop random1 i a = shuffle_loop random2 i a.
Proof.
  revert a. induction i as [|i IH]; intros a Hr; simpl; [done|].
  rewrite (Hr (S i)) by lia. apply IH. intros k Hk. apply Hr. lia.
Qed.

(** The loop from index [i] down can put the first [i + 1] elements in any
    order. *)
Lemma shuffle_loop_reaches {A : Type} (i : nat) (p p' q : list A) :
  length p = S i → p ≡ₚ p' →
  ∃ random, shuffle_loop random i (p ++ q) = p' ++ q.
Proof.
  revert p p' q. induction i as [|i IH]; intros p p' q Hl Hp.
  - exists no_random. simpl. destruct p as [|x [|? ?]]; try done.
    by apply Permutation_singleton_l in Hp as <-.
  - destruct p' as [|x p0 _] using rev_ind.
    { apply Permutation_length in Hp. simpl in Hp. lia. }
    assert (Hx : x ∈ p) by (rewrite Hp; apply list_elem_of_In, in_or_app; right; by left).
    apply list_elem_of_lookup_1 in Hx as [j Hj].
    pose proof (lookup_lt_Some _ _ _ Hj) as Hjl.
    destruct (lookup_lt_is_Some_2 p (S i)) as [y Hy]; [lia|].
    set (a := p ++ q).
    assert (Haj : a !! j = Some x) by (by apply lookup_app_l_Some).
    assert (Hai : a !! S i = Some y) by (by apply lookup_app_l_Some).
    set (a' := <[j:=y]> (<[S i:=x]> a)).
    assert (Hswap : swap a (S i) j = a') by (unfold swap; by rewrite Hai, Haj).
    assert (Hlen : length a' = length a) by (unfold a'; by rewrite !length_insert).
    assert (Hla : (S i < length a)%nat) by (by apply lookup_lt_Some with y).
    assert (Hlast : a' !! S i = Some x).
    { unfold a'. destruct (decide (j = S i)) as [->|Hne].
      - rewrite list_lookup_insert_eq by (rewrite length_insert; lia). congruence.
      - rewrite list_lookup_insert_ne by done. by apply list_lookup_insert_eq. }
    assert (Hq : drop (S (S i)) a' = q).
    { unfold a'. rewrite !drop_insert_lt by lia. unfold a.
      by rewrite drop_app_length'. }
    assert (Ha' : a' = take (S i) a' ++ x :: q).
    { rewrite <- Hq. symmetry. by apply take_drop_middle. }
    assert (Hp1 : take (S i) a' ≡ₚ p0).
    { apply (Permutation_app_inv_r (x :: q)). rewrite <- Ha'.
      transitivity a; [by apply Permutation_insert_swap|].
      unfold a. rewrite Hp, <- app_assoc. done. }
    destruct (IH (take (S i) a') p0 (x :: q)) as [random' Hr'];
      [rewrite length_take; lia | done |].
    exists (λ k, if decide (k = S i) then {| r_num := j; r_gap := S i - j |}
                 else random' k).
    simpl. rewrite decide_True by done.
    replace (S (i + 1)) with (S i + 1)%nat by lia.
    rewrite floor_times_pick by lia. rewrite Hswap, Ha'.
    rewrite (shuffle_loop_ext _ random'); [|intros k Hk; rewrite decide_False; [done|lia]].
    rewrite Hr'. by rewrite <- app_assoc.
Qed.

(** X10: every permutation of the argument is a result of [shuffle] for
    some results of [Math.random]. *)
Theorem shuffle_reaches {A : Type} (array target : list A) :
  target ≡ₚ array → ∃ random, shuffle random array = target.
Proof.
  intros Hp. destruct array as [|x r].
  - apply Permutation_nil_r in Hp as ->. by exists no_random.
  - destruct (shuffle_loop_reaches (length r) (x :: r) target []) as [random Hr];
      [done | done |].
    exists random. unfold shuffle. simpl. rewrite Nat.sub_0_r.
    rewrite !app_nil_r in Hr. done.
Qed.

Lemma shuffle_reaches_witness :
  ∃ random, shuffle random bank3 = [word_c; word_a; word_b].
Proof.
  apply shuffle_reaches. apply Permutation_cons_append.
Defined.

(** *** A full round of advances *)

Lemma iter_goNext_add (a b : nat) (st : State) :
  Nat.iter (a + b) goNext st = Nat.iter b goNext (Nat.iter a goNext st).
Proof. rewrite Nat.add_comm. apply Nat.iter_add. Qed.

Lemma shown_add (a b : nat) (st : State) :
  shown (a + b) st = shown a st ++ shown b (Nat.iter a goNext st).
Proof.
  induction b as [|b IH]; simpl.
  - by rewrite Nat.add_0_r, app_nil_r.
  - rewrite Nat.add_succ_r, !shown_S, IH, <- app_assoc. do 2 f_equal.
    by rewrite iter_goNext_add.
Qed.

(** X11: from a cursor [c] that is an index of an order of length [n], [n]
    advances show every item once, those from the cursor on and then those
    before it, and bring the cursor back to [c]. *)
Theorem advance_full_round (st : State) (c : Z) :
  idx st = Int c → 0 ≤ c < total st →
  let n := length (orderedWords st) in
  idx (Nat.iter n goNext st) = Int c
  ∧ orderedWords (Nat.iter n goNext st) = orderedWords st
  ∧ shown n st
    = drop (Z.to_nat c) (orderedWords st) ++ take (Z.to_nat c) (orderedWords st)
  ∧ shown n st ≡ₚ orderedWords st.
Proof.
  intros Hi Hc n. unfold total in Hc. fold n in Hc.
  set (k := (n - Z.to_nat c)%nat).
  assert (Hn : n = (k + Z.to_nat c)%nat) by lia.
  (* the state once the end of the order has been passed *)
  set (st2 := Nat.iter k goNext st).
  assert (Ho2 : orderedWords st2 = orderedWords st) by apply iter_goNext_order.
  assert (Hi2 : idx st2 = Int 0).
  { unfold st2. replace k with (S (k - 1)) by lia.
    change (Nat.iter (S (k - 1)) goNext st) with (goNext (Nat.iter (k - 1) goNext st)).
    unfold goNext at 1. simpl.
    rewrite (iter_goNext_idx (k - 1) st c Hi), iter_goNext_order by (fold n; lia).
    fold n. simpl. destruct (Z.eqb_spec (Z.of_nat n) 0); [lia|].
    replace (c + Z.of_nat (k - 1) + 1) with (Z.of_nat n) by lia.
    by rewrite Z.rem_same by lia. }
  destruct (shown_stretch k st c Hi) as [Hs1 _]; [lia | fold n; lia |].
  destruct (shown_stretch (Z.to_nat c) st2 0 Hi2) as [Hs2 _];
    [lia | rewrite Ho2; fold n; lia |].
  assert (Hshown : shown n st
                   = drop (Z.to_nat c) (orderedWords st) ++ take (Z.to_nat c) (orderedWords st)).
  { rewrite Hn, shown_add. fold st2. rewrite Hs1, Hs2, Ho2. simpl. f_equal.
    apply take_ge. rewrite length_drop. fold n. lia. }
  split; [|split; [apply iter_goNext_order|split; [done|]]].
  - rewrite Hn, iter_goNext_add. fold st2.
    rewrite (iter_goNext_idx (Z.to_nat c) st2 0 Hi2) by (rewrite ?Ho2; fold n; lia).
    f_equal. lia.
  - rewrite Hshown, Permutation_app_comm. by rewrite take_drop.
Qed.

Lemma advance_full_round_witness :
  let st := session_at bank3 (Int 1) [] in
  idx (Nat.iter 3 goNext st) = Int 1
  ∧ orderedWords (Nat.iter 3 goNext st) = bank3
  ∧ shown 3 st = [word_b; word_c] ++ [word_a]
  ∧ shown 3 st ≡ₚ bank3.
Proof.
  assert (Hr : 0 ≤ 1 < total (session_at bank3 (Int 1) []))
    by (unfold total; simpl; lia).
  exact (advance_full_round (session_at bank3 (Int 1) []) 1 eq_refl Hr).
Defined.

(** *** Passing again and again *)

Lemma onPass_at_split (st : State) (before : list Word) (x : Word) (after : list Word) :
  orderedWords st = before ++ x :: after →
  idx st = Int (Z.of_nat (length before)) →
  orderedWords (onPass st) = before ++ after ++ [x]
  ∧ idx (onPass st) = idx st
  ∧ passed (stats (onPass st)) = passed (stats st) + 1.
Proof.
  intros Ho Hi. split; [|done].
  assert (Hr : 0 ≤ Z.of_nat (length before) < Z.of_nat (length (orderedWords st))).
  { rewrite Ho, length_app. simpl. lia. }
  pose proof (current_in_range st _ Hi Hr) as Hc.
  rewrite (onPass_order st _ Hi Hr), Nat2Z.id. rewrite Nat2Z.id in Hc.
  rewrite Ho in *. rewrite list_lookup_middle in Hc by done. injection Hc as <-.
  rewrite take_app_length. f_equal.
  change (before ++ x :: after) with (before ++ [x] ++ after).
  rewrite app_assoc. rewrite drop_app_length'; [done|].
  rewrite length_app. simpl. lia.
Qed.

(** X12: passing rotates the part of the order from the cursor on: with the
    order made of the items before the cursor, then [front], then [back],
    as many passes as [front] has items leave the order as the items before
    the cursor, then [back], then [front]; the cursor stays and every pass
    is counted. With [back] empty the order is as it was before, and a pass
    on the last item alone changes nothing but the counter. *)
Theorem passes_rotate (front : list Word) (st : State) (before back : list Word) :
  orderedWords st = before ++ front ++ back →
  idx st = Int (Z.of_nat (length before)) →
  let st' := Nat.iter (length front) onPass st in
  orderedWords st' = before ++ back ++ front
  ∧ idx st' = idx st
  ∧ passed (stats st') = passed (stats st) + Z.of_nat (length front).
Proof.
  revert st back. induction front as [|x front IH]; intros st back Ho Hi st'.
  - subst st'. simpl in *. rewrite app_nil_r, Ho. repeat split. lia.
  - subst st'. simpl length. rewrite Nat.iter_succ_r.
    destruct (onPass_at_split st before x (front ++ back)) as (Ho1 & Hi1 & Hp1); [done|done|].
    destruct (IH (onPass st) (back ++ [x])) as (Ho2 & Hi2 & Hp2).
    { by rewrite Ho1, <- !app_assoc. }
    { by rewrite Hi1. }
    rewrite Ho2, Hi2, Hp2, Hi1, Hp1, <- !app_assoc. repeat split. lia.
Qed.

Lemma passes_rotate_witness :
  let st := session_at bank3 (Int 1) [] in
  orderedWords (Nat.iter 2 onPass st) = [word_a] ++ [] ++ [word_b; word_c]
  ∧ idx (Nat.iter 2 onPass st) = Int 1
  ∧ passed (stats (Nat.iter 2 onPass st)) = 0 + 2.
Proof.
  exact (passes_rotate [word_b; word_c] (session_at bank3 (Int 1) [])
           [word_a] [] eq_refl eq_refl).
Defined.

(** X13: a pass while the cursor is [NaN] or at or beyond the end of the
    order puts the placeholder at the end of the order, which grows by
    one. *)
Theorem onPass_beyond_end (st : State) :
  (idx st = NaN ∨ ∃ z, idx st = Int z ∧ Z.of_nat (length (orderedWords st)) ≤ z) →
  orderedWords (onPass st) = orderedWords st ++ [placeholder].
Proof.
  intros Hi. unfold onPass, current, array_get. simpl.
  destruct Hi as [->|(z & -> & Hz)]; simpl.
  - unfold slice, relative_index. simpl. rewrite Z.min_l by lia. simpl.
    rewrite Z.sub_0_r, Nat2Z.id, firstn_all. done.
  - pose proof (Zle_0_nat (length (orderedWords st))) as H0.
    destruct (Z.leb_spec 0 z); [|lia].
    rewrite (lookup_ge_None_2 (orderedWords st) (Z.to_nat z)) by lia. simpl.
    unfold slice, relative_index. simpl.
    destruct (Z.ltb_spec z 0); [lia|]. destruct (Z.ltb_spec (z + 1) 0); [lia|].
    rewrite (Z.min_r z), (Z.min_r (z + 1)), (Z.min_l 0) by lia. simpl.
    rewrite Z.sub_0_r, Z.sub_diag, Nat2Z.id, firstn_all. simpl.
    by rewrite app_nil_r.
Qed.

Lemma onPass_beyond_end_witness :
  orderedWords (onPass (session_at bank3 (Int 3) [])) = bank3 ++ [placeholder].
Proof.
  apply onPass_beyond_end. right. exists 3. split; [reflexivity|]. simpl. lia.
Defined.

(** *** Saving and loading *)

(** X14: what the save effect writes, the load effect reads back: when the
    order has the length of the word bank and the cursor is an integer below
    that length, loading the written snapshot gives the order, the cursor,
    the counters and the mode of the saved state, in whatever state the
    component is then; the answer being typed, the revealed flag and the
    hint level are not stored and stay as they are. *)
Theorem persist_then_load (wordsData : list Word) (random : nat → Random)
    (storage : Stored) (st st' : State) (z : Z) :
  loaded st = true →
  length (orderedWords st) = length wordsData →
  idx st = Int z → z < Z.of_nat (length wordsData) →
  let back := load wordsData random (persist true st storage) st' in
  orderedWords back = orderedWords st
  ∧ idx back = idx st
  ∧ stats back = stats st
  ∧ quizMode back = quizMode st
  ∧ answer back = answer st'
  ∧ revealed back = revealed st'
  ∧ hintCount back = hintCount st'.
Proof.
  intros Hl Hlen Hi Hz back. subst back. unfold persist. rewrite Hl. simpl.
  assert (Ho : restoredOrder wordsData random (saved st) = orderedWords st).
  { unfold restoredOrder. simpl. by rewrite bool_decide_eq_false_2 by (by intros []). }
  rewrite Ho, Hi. repeat split. simpl. f_equal. lia.
Qed.

Lemma persist_then_load_witness :
  let st := session_at [word_b; word_c; word_a] (Int 2) (lit "el") in
  let back := load bank3 no_random (persist true st Nothing) (initial bank3 no_random) in
  orderedWords back = [word_b; word_c; word_a]
  ∧ idx back = Int 2
  ∧ stats back = zero_stats
  ∧ quizMode back = en2tr
  ∧ answer back = []
  ∧ revealed back = false
  ∧ hintCount back = 0.
Proof.
  assert (Hz : 2 < Z.of_nat (length bank3)) by (simpl; lia).
  exact (persist_then_load bank3 no_random Nothing
           (session_at [word_b; word_c; word_a] (Int 2) (lit "el"))
           (initial bank3 no_random) 2 eq_refl eq_refl eq_refl Hz).
Defined.

(** *** The counters *)

Lemma handle_counts (lower : jsstring → jsstring) (wordsData : list Word)
    (e : Event) (st : State) :
  counting_event e →
  let st' := handle lower wordsData e st in
  correct (stats st) ≤ correct (stats st')
  ∧ wrong (stats st) ≤ wrong (stats st')
  ∧ passed (stats st) ≤ passed (stats st')
  ∧ answered st' ≤ answered st + 1.
Proof.
  intros He st'. subst st'. unfold answered.
  destruct e as [text| | | | | |random|random| |random item]; simpl; try done;
    try lia.
  destruct (onSubmit_cases lower st) as [->|[->| ->]]; simpl; lia.
Qed.

(** X15: apart from the reset and the load, no event lowers a counter, and
    every event adds at most one to their sum; so when the counters start
    at zero or above, [remaining] stays between 0 and the length of the
    order. *)
Theorem counters_only_grow (lower : jsstring → jsstring) (wordsData : list Word)
    (es : list Event) (st : State) :
  Forall counting_event es →
  let st' := run lower wordsData es st in
  correct (stats st) ≤ correct (stats st')
  ∧ wrong (stats st) ≤ wrong (stats st')
  ∧ passed (stats st) ≤ passed (stats st')
  ∧ answered st' ≤ answered st + Z.of_nat (length es)
  ∧ (0 ≤ answered st → 0 ≤ remaining st' ≤ total st').
Proof.
  intros Hes st'. subst st'. unfold run. revert st.
  induction Hes as [|e es He _ IH]; intros st; simpl fold_left.
  - unfold remaining, answered, total. simpl. lia.
  - destruct (handle_counts lower wordsData e st He) as (Hc & Hw & Hp & Ha).
    destruct (IH (handle lower wordsData e st)) as (Hc' & Hw' & Hp' & Ha' & Hr').
    unfold answered in *. simpl length. repeat split; try lia; apply Hr'; lia.
Qed.

Lemma counters_only_grow_witness :
  let st' := run Matcher.tr_lower bank3
               [Pass; ChangeText (lit "x"); Submit; Next; Hint; Pass]
               (session_at bank3 (Int 0) []) in
  0 ≤ correct (stats st')
  ∧ 0 ≤ wrong (stats st')
  ∧ 0 ≤ passed (stats st')
  ∧ answered st' ≤ 0 + 6
  ∧ (0 ≤ 0 → 0 ≤ remaining st' ≤ total st').
Proof.
  apply (counters_only_grow Matcher.tr_lower bank3
           [Pass; ChangeText (lit "x"); Submit; Next; Hint; Pass]
           (session_at bank3 (Int 0) [])).
  repeat constructor.
Defined.

(** X16: [onSubmit] does not look at the revealed flag: when a wrong answer
    has revealed the item and the user then types an accepted answer and
    submits from the keyboard, the same showing of the item is counted as
    wrong and as correct, and the cursor advances. *)
Theorem revealed_item_counts_twice (lower : jsstring → jsstring)
    (wordsData : list Word) (good : jsstring) (st : State) :
  forallb is_white_space (answer st) = false →
  Matcher.isCorrect lower (answer st) (correctAnswer st) = false →
  forallb is_white_space good = false →
  Matcher.isCorrect lower good (correctAnswer st) = true →
  let st1 := handle lower wordsData Submit st in
  let st2 := run lower wordsData [Submit; ChangeText good; Submit] st in
  revealed st1 = true
  ∧ stats st2 = {| correct := correct (stats st) + 1;
                   wrong := wrong (stats st) + 1;
                   passed := passed (stats st) |}
  ∧ idx st2 = idx (goNext st)
  ∧ revealed st2 = false.
Proof.
  intros Hw Hbad Hg Hgood st1 st2.
  assert (H1 : onSubmit lower st = reveal_wrong st).
  { unfold onSubmit. destruct (trim (answer st)) eqn:Et.
    - apply JsFacts.trim_nil_iff in Et. congruence.
    - by rewrite Hbad. }
  assert (H2 : onSubmit lower (setAnswer good (reveal_wrong st))
               = goNext (count_correct (setAnswer good (reveal_wrong st)))).
  { unfold onSubmit. change (answer (setAnswer good (reveal_wrong st))) with good.
    change (correctAnswer (setAnswer good (reveal_wrong st))) with (correctAnswer st).
    destruct (trim good) eqn:Et.
    - apply JsFacts.trim_nil_iff in Et. congruence.
    - by rewrite Hgood. }
  subst st1 st2. unfold run. simpl. rewrite H1, H2. done.
Qed.

Lemma revealed_item_counts_twice_witness :
  let st := session_at bank3 (Int 0) (lit "armut") in
  let st1 := handle Matcher.tr_lower bank3 Submit st in
  let st2 := run Matcher.tr_lower bank3 [Submit; ChangeText (lit "elma"); Submit] st in
  revealed st1 = true
  ∧ stats st2 = {| correct := 0 + 1; wrong := 0 + 1; passed := 0 |}
  ∧ idx st2 = Int 1
  ∧ revealed st2 = false.
Proof.
  exact (revealed_item_counts_twice Matcher.tr_lower bank3 (lit "elma")
           (session_at bank3 (Int 0) (lit "armut")) eq_refl eq_refl eq_refl eq_refl).
Defined.

(** *** Starting over *)

(** X17: the confirmed reset gives zero counters, the cursor 0, a
    permutation of the word bank as the order, an empty answer, a hidden
    answer and no hint, and keeps the mode. *)
Theorem reset_starts_over (wordsData : list Word) (random : nat → Random) (st : State) :
  stats (onResetProgress wordsData random st) = zero_stats
  ∧ idx (onResetProgress wordsData random st) = Int 0
  ∧ orderedWords (onResetProgress wordsData random st) ≡ₚ wordsData
  ∧ answer (onResetProgress wordsData random st) = []
  ∧ revealed (onResetProgress wordsData random st) = false
  ∧ hintCount (onResetProgress wordsData random st) = 0
  ∧ quizMode (onResetProgress wordsData random st) = quizMode st.
Proof. repeat split. apply shuffle_Permutation. Qed.

(** *** The question *)

Lemma split_head (sep : Z) (s : jsstring) :
  ∃ h t rest, split sep s = h :: t ∧ ¬ In sep h
              ∧ s = h ++ rest ∧ (rest = [] ∨ head rest = Some sep).
Proof.
  induction s as [|c r (h & t & rest & Hs & Hn & Hr & Hrest)]; simpl.
  - exists [], [], []. repeat split; auto.
  - destruct (Z.eqb_spec c sep) as [->|Hc].
    + exists [], (split sep r), (sep :: r). repeat split; auto.
    + rewrite Hs. exists (c :: h), t, rest. repeat split; auto.
      * intros [->|Hin]; done.
      * simpl. by rewrite <- Hr.
Qed.

(** X18: in the direction [tr2en] the question is the part of the [tr]
    field before its first bar: it holds no bar, and the field is the
    question followed by nothing or by a bar and the rest. *)
Theorem question_first_variant (st : State) :
  quizMode st = tr2en →
  ¬ In Matcher.PIPE (question st)
  ∧ ∃ rest, tr (current st) = question st ++ rest
            ∧ (rest = [] ∨ head rest = Some Matcher.PIPE).
Proof.
  intros Hm. unfold question. rewrite Hm.
  destruct (split_head Matcher.PIPE (tr (current st)))
    as (h & t & rest & Hs & Hn & Hr & Hrest).
  rewrite Hs. simpl. split; [done|]. by exists rest.
Qed.

Lemma question_first_variant_witness :
  let st := {| orderedWords := [{| en := lit "apple"; tr := lit "elma|alma" |}];
               idx := Int 0; answer := []; revealed := false; stats := zero_stats;
               loaded := true; quizMode := tr2en; hintCount := 0 |} in
  ¬ In Matcher.PIPE (question st)
  ∧ ∃ rest, tr (current st) = question st ++ rest
            ∧ (rest = [] ∨ head rest = Some Matcher.PIPE).
Proof.
  exact (question_first_variant
           {| orderedWords := [{| en := lit "apple"; tr := lit "elma|alma" |}];
              idx := Int 0; answer := []; revealed := false; stats := zero_stats;
              loaded := true; quizMode := tr2en; hintCount := 0 |} eq_refl).
Defined.

(** *** The length of the order *)

Section Length.

Variable lower : jsstring → jsstring.
Variable wordsData : list Word.
Hypothesis bank_not_empty : wordsData ≠ [].

Lemma handle_length (e : Event) (st : State) :
  cursor_in_range st → length (orderedWords st) = length wordsData →
  length (orderedWords (handle lower wordsData e st)) = length wordsData.
Proof.
  intros Hr Hl.
  destruct e as [text| | | | | |random|random| |random item]; simpl; try done.
  - by destruct (onSubmit_cases lower st) as [->|[->| ->]].
  - rewrite <- Hl. by apply Permutation_length, onPass_Permutation.
  - apply shuffle_length.
  - by rewrite shuffle_length.
  - destruct item as [| |parsed]; try done. apply restoredOrder_length.
Qed.

(** X19: with a word bank that is not empty, the order keeps the length of
    the bank under every sequence of events, whatever orders the restored
    snapshots hold, as long as their cursors are absent or not negative. *)
Theorem order_keeps_length (es : list Event) (st : State) :
  length (orderedWords st) = length wordsData → cursor_in_range st →
  Forall cursor_safe es →
  length (orderedWords (run lower wordsData es st)) = length wordsData.
Proof.
  intros Hl Hr Hes. revert st Hl Hr. unfold run.
  induction Hes as [|e es He _ IH]; intros st Hl Hr; simpl; [done|].
  apply IH.
  - by apply handle_length.
  - by apply handle_in_range.
Qed.

End Length.

Lemma order_keeps_length_witness :
  length (orderedWords
            (run Matcher.tr_lower bank3
               [Pass; Load no_random (Snapshot snapshot_doubled); Next; Pass;
                Load no_random (Snapshot snapshot_short)]
               (session_at bank3 (Int 1) [])))
  = length bank3.
Proof.
  apply (order_keeps_length Matcher.tr_lower bank3).
  - done.
  - done.
  - exists 1. split; [reflexivity|]. simpl. lia.
  - repeat constructor; intros i [= <-]; lia.
Defined.

(** *** Answers of punctuation only *)

(** X20: an answer that is not blank but whose normalization is empty, such
    as a row of dots, is submitted and counted as wrong: the answer is
    revealed and the cursor stays. *)
Theorem punctuation_only_counts_wrong (lower : jsstring → jsstring) (st : State) :
  forallb is_white_space (answer st) = false →
  Matcher.normalize lower (answer st) = [] →
  onSubmit lower st = reveal_wrong st.
Proof.
  intros Hw Hn. unfold onSubmit. destruct (trim (answer st)) eqn:Et.
  - apply JsFacts.trim_nil_iff in Et. congruence.
  - by rewrite (MatcherFacts.isCorrect_normalize_nil lower _ (correctAnswer st) Hn).
Qed.

Lemma punctuation_only_counts_wrong_witness :
  onSubmit Matcher.tr_lower (session_at bank3 (Int 0) (lit "..."))
  = reveal_wrong (session_at bank3 (Int 0) (lit "...")).
Proof.
  exact (punctuation_only_counts_wrong Matcher.tr_lower
           (session_at bank3 (Int 0) (lit "...")) eq_refl eq_refl).
Defined.

(** *** Asking for hints *)

Lemma iter_onHint (k : nat) (st : State) :
  orderedWords (Nat.iter k onHint st) = orderedWords st
  ∧ idx (Nat.iter k onHint st) = idx st
  ∧ quizMode (Nat.iter k onHint st) = quizMode st
  ∧ stats (Nat.iter k onHint st) = stats st
  ∧ hintCount (Nat.iter k onHint st) = hintCount st + Z.of_nat k.
Proof.
  induction k as [|k (Ho & Hi & Hm & Hs & Hh)].
  - simpl. repeat split. lia.
  - change (Nat.iter (S k) onHint st) with (onHint (Nat.iter k onHint st)).
    simpl. rewrite Ho, Hi, Hm, Hs, Hh. repeat split. lia.
Qed.

Lemma correctAnswer_ext (st st' : State) :
  orderedWords st' = orderedWords st → idx st' = idx st → quizMode st' = quizMode st →
  correctAnswer st' = correctAnswer st.
Proof. intros Ho Hi Hm. unfold correctAnswer, current. by rewrite Ho, Hi, Hm. Qed.

(** X21: on a question without a hint yet, [k] requests for a hint set the
    hint level to [k] and leave order, cursor and counters alone; the
    syllables are shown from the second request on, and once [k] has
    reached the length of the accepted answer the hint box shows that
    answer in full, bars and all variants included. *)
Theorem hints_add_up (k : nat) (st : State) :
  hintCount st = 0 →
  let st' := Nat.iter k onHint st in
  hintCount st' = Z.of_nat k
  ∧ orderedWords st' = orderedWords st ∧ idx st' = idx st ∧ stats st' = stats st
  ∧ syllableText st'
    = (if (1 <? Z.of_nat k) then Some (HintEngine.syllabify (correctAnswer st)) else None)
  ∧ ((0 < k)%nat → (length (correctAnswer st) ≤ k)%nat →
     hintText st' = Some (correctAnswer st)).
Proof.
  intros H0 st'. destruct (iter_onHint k st) as (Ho & Hi & Hm & Hs & Hh).
  fold st' in Ho, Hi, Hm, Hs, Hh. rewrite H0, Z.add_0_l in Hh.
  pose proof (correctAnswer_ext st st' Ho Hi Hm) as Hc.
  split; [done|]. split; [done|]. split; [done|]. split; [done|]. split.
  - unfold syllableText. by rewrite Hh, Hc.
  - intros Hk Hl. unfold hintText. rewrite Hh, Hc.
    destruct (Z.ltb_spec 0 (Z.of_nat k)); [|lia].
    f_equal. apply HintFacts.getHint_full. lia.
Qed.

Lemma hints_add_up_witness :
  let st := session_at bank3 (Int 0) [] in
  let st' := Nat.iter 4 onHint st in
  hintCount st' = 4
  ∧ orderedWords st' = bank3 ∧ idx st' = Int 0 ∧ stats st' = zero_stats
  ∧ syllableText st' = Some (lit "e-lma")
  ∧ ((0 < 4)%nat → (4 ≤ 4)%nat → hintText st' = Some (lit "elma")).
Proof. exact (hints_add_up 4 (session_at bank3 (Int 0) []) eq_refl). Defined.

(** *** A snapshot without fields *)

(** X22: loading a snapshot that has none of the four fields gives, for a
    word bank that is not empty, the bank in the order of its file, not
    shuffled, the cursor 0, zero counters and the direction [en2tr], and
    marks the state as loaded. *)
Theorem load_without_fields (wordsData : list Word) (random : nat → Random) (st : State) :
  wordsData ≠ [] →
  let st' := load wordsData random (Snapshot snapshot_empty) st in
  orderedWords st' = wordsData
  ∧ idx st' = Int 0
  ∧ stats st' = zero_stats
  ∧ quizMode st' = en2tr
  ∧ loaded st' = true.
Proof.
  intros Hne st'. subst st'. simpl.
  assert (Ho : restoredOrder wordsData random snapshot_empty = wordsData).
  { unfold restoredOrder. simpl. by rewrite bool_decide_eq_false_2 by (by intros []). }
  rewrite Ho. repeat split. f_equal.
  destruct wordsData; [done|]. simpl length. lia.
Qed.

Lemma load_without_fields_witness :
  let st' := load bank3 no_random (Snapshot snapshot_empty) (initial bank3 no_random) in
  orderedWords st' = bank3
  ∧ idx st' = Int 0
  ∧ stats st' = zero_stats
  ∧ quizMode st' = en2tr
  ∧ loaded st' = true.
Proof.
  assert (Hne : bank3 ≠ []) by done.
  exact (load_without_fields bank3 no_random (initial bank3 no_random) Hne).
Defined.

End SessionFacts.
